(** * synthpops: long-term-care facilities and household generation

    A shallow embedding of [synthpops/long_term_care_facilities.py].

    Conventions.
    - Python [int] is [Z]; Python [float] is idealised as an exact rational
      [Q] (rounding error is outside the model); [int(x)] truncates toward
      zero and [math.ceil] is [Qceiling].
    - A Python exception is a [Raise]; a loop that the model cannot bound
      runs on fuel and answers [Diverge] when the fuel is gone.
    - The numpy random stream is an explicit tape; the samplers of the
      [synthpops] package ([sp.*]), which live outside this module, are the
      fields of a record that the embedded functions take as an argument. *)

From Stdlib Require Import ZArith QArith Qround Lia List.
From stdpp Require Import gmap strings.
Import ListNotations.

Local Open Scope Z_scope.

(** ** Results of Python code *)

Inductive exn : Type :=
| KeyError
| IndexError
| ValueError
| OverflowError
| ZeroDivisionError.

Inductive result (A : Type) : Type :=
| Ok (a : A)
| Raise (e : exn)
| Diverge.

Arguments Ok {A} a.
Arguments Raise {A} e.
Arguments Diverge {A}.

Definition bind {A B : Type} (k : A -> result B) (m : result A) : result B :=
  match m with
  | Ok a => k a
  | Raise e => Raise e
  | Diverge => Diverge
  end.

#[global] Instance result_ret : MRet result := fun _ a => Ok a.
#[global] Instance result_bind : MBind result := fun _ _ k m => bind k m.

(** [d[k]] on a dictionary held as a partial function. *)
Definition getitem {A : Type} (o : option A) : result A :=
  match o with
  | Some a => Ok a
  | None => Raise KeyError
  end.

(** [l[i]] on a list, [i] a non-negative index. *)
Definition index {A : Type} (l : list A) (i : nat) : result A :=
  match nth_error l i with
  | Some a => Ok a
  | None => Raise IndexError
  end.

(** ** Numbers *)

(** [int(x)] on a float: truncation toward zero. *)
Definition int_of (x : Q) : Z :=
  if Qle_bool 0 x then Qfloor x else Qceiling x.

(** [int(math.ceil(x))]. *)
Definition ceil (x : Q) : Z := Qceiling x.

Definition Zsum (l : list Z) : Z := fold_right Z.add 0 l.
Definition Qsum (l : list Q) : Q := fold_right Qplus (0#1)%Q l.

(** ** Python slices *)

(** The position a slice bound [k] denotes in a list of length [len]:
    a negative bound counts from the end, and both ends clamp. *)
Definition slice_bound (len : nat) (k : Z) : nat :=
  if k <? 0 then Z.to_nat (Z.max 0 (Z.of_nat len + k))
  else Nat.min (Z.to_nat k) len.

(** [l[0:k]] *)
Definition slice_to {A : Type} (l : list A) (k : Z) : list A :=
  firstn (slice_bound (length l) k) l.

(** [l[k:]] *)
Definition slice_from {A : Type} (l : list A) (k : Z) : list A :=
  skipn (slice_bound (length l) k) l.

(** ** numpy's random stream *)

(** [np.random.choice(l)] with the stream's next value [r]: one element of
    [l], each reachable by some [r]; an empty [l] is a ValueError. *)
Definition choice {A : Type} (l : list A) (r : nat) : result A :=
  match l with
  | [] => Raise ValueError
  | _ => index l (r mod length l)%nat
  end.

(** ** Placing residents in facilities (lines 476-489) *)

(** [all_residents]: every age [a] of [expected_users_by_age], repeated by
    its count, in the dictionary's order. *)
Definition pool_of (expected_users_by_age : list (Z * Z)) : list Z :=
  flat_map (fun '(a, c) => repeat a (Z.to_nat c)) expected_users_by_age.

(** The size drawn at the [i]-th turn of the loop. *)
Definition drawn_size (KC_ltcf_sizes : list Q) (tape : nat -> nat) (i : nat)
  : result Z :=
  s ← choice KC_ltcf_sizes (tape i); Ok (int_of s).

(** [while len(all_residents) > 0: ...]; [i] counts the turns taken so far. *)
Fixpoint place_residents (fuel : nat) (KC_ltcf_sizes : list Q)
    (tape : nat -> nat) (i : nat) (all_residents : list Z)
    (facilities : list (list Z)) : result (list (list Z)) :=
  match all_residents with
  | [] => Ok facilities
  | _ :: _ =>
    match fuel with
    | O => Diverge
    | S fuel' =>
      size ← drawn_size KC_ltcf_sizes tape i;
      let new_facility := slice_to all_residents size in
      place_residents fuel' KC_ltcf_sizes tape (S i)
        (slice_from all_residents size) (facilities ++ [new_facility])
    end
  end.

(** ** Weighted draws *)

Definition Qpos_bool (x : Q) : bool := negb (Qle_bool x 0).
Definition Qneg_bool (x : Q) : bool := negb (Qle_bool 0 x).

(** [w / np.sum(w)] on an integer array: a zero sum leaves no finite
    probability (numpy answers nan or inf with a warning), which [None]
    stands for. *)
Definition normalized (w : list Z) : option (list Q) :=
  let total := Zsum w in
  if total =? 0 then None
  else Some (map (fun c => (inject_Z c / inject_Z total)%Q) w).

(** The entries of [a] that [p] gives a positive probability. *)
Definition support {A : Type} (a : list A) (p : list Q) : list A :=
  map fst (filter (fun ap => Qpos_bool (snd ap)) (combine a p)).

(** [np.random.choice(a=a, p=p)] with the stream's next value [r]. numpy
    refuses (ValueError) a [p] that is not finite, has another length than
    [a], has a negative entry or does not sum to one; otherwise the answer
    is an entry of positive probability, each reachable by some [r]. *)
Definition choice_p {A : Type} (a : list A) (p : option (list Q)) (r : nat)
  : result A :=
  match p with
  | None => Raise ValueError
  | Some p =>
    if negb (length a =? length p)%nat then Raise ValueError
    else if existsb Qneg_bool p then Raise ValueError
    else if negb (Qeq_bool (Qsum p) 1) then Raise ValueError
    else index (support a p) (r mod length (support a p))%nat
  end.

(** ** Facility staff (lines 572-597) *)

Abbreviation uid := string.

(** The worker bookkeeping handed over by the school stage. *)
Record workers : Type := Workers {
  potential_worker_uids : gmap uid Z;
  potential_worker_uids_by_age : gmap Z (list uid);
  workers_by_age_to_assign_count : gmap Z Z
}.

(** [np.arange(20, 60)] *)
Definition staff_age_range : list Z := map Z.of_nat (seq 20 40).

(** [[f(x) for x in l]] where [f] may raise. *)
Fixpoint traverse {A B : Type} (f : A -> result B) (l : list A)
  : result (list B) :=
  match l with
  | [] => Ok []
  | x :: l' => y ← f x; ys ← traverse f l'; Ok (y :: ys)
  end.

(** [l.remove(x)]: drops the first [x]; a ValueError when there is none. *)
Fixpoint list_remove (x : uid) (l : list uid) : result (list uid) :=
  match l with
  | [] => Raise ValueError
  | y :: l' =>
    if decide (x = y) then Ok l'
    else l'' ← list_remove x l'; Ok (y :: l'')
  end.

(** One turn of [for i in range(n_staff)]: the age drawn, the uid taken and
    the bookkeeping after it. *)
Definition assign_one_staff (w : workers) (r : nat)
  : result (Z * uid * workers) :=
  a_prob ← traverse (fun a => getitem (workers_by_age_to_assign_count w !! a))
             staff_age_range;
  aindex ← choice_p staff_age_range (normalized a_prob) r;
  uids ← getitem (potential_worker_uids_by_age w !! aindex);
  u ← index uids 0;
  uids' ← list_remove u uids;
  c ← getitem (workers_by_age_to_assign_count w !! aindex);
  Ok (aindex, u,
      {| potential_worker_uids := delete u (potential_worker_uids w);
         potential_worker_uids_by_age :=
           <[aindex := uids']> (potential_worker_uids_by_age w);
         workers_by_age_to_assign_count :=
           <[aindex := c - 1]> (workers_by_age_to_assign_count w) |}).

(** [for i in range(n_staff)], from turn [i] on; [tape i] is the stream's
    value at turn [i]. *)
Fixpoint assign_staff (n_staff : nat) (tape : nat -> nat) (i : nat)
    (w : workers) (new_staff : list Z) (new_staff_uids : list uid)
  : result (list Z * list uid * workers) :=
  match n_staff with
  | O => Ok (new_staff, new_staff_uids, w)
  | S n' =>
    '(aindex, u, w') ← assign_one_staff w (tape i);
    assign_staff n' tape (S i) w' (new_staff ++ [aindex])
      (new_staff_uids ++ [u])
  end.

(** [int(math.ceil(n_residents/resident_staff_ratio))]; the ratio is a
    numpy float, so a zero ratio gives nan (no resident) or inf, and
    [math.ceil] refuses both. *)
Definition staff_needed (n_residents : nat) (resident_staff_ratio : Q)
  : result Z :=
  if Qeq_bool resident_staff_ratio 0
  then Raise (if (n_residents =? 0)%nat then ValueError else OverflowError)
  else Ok (ceil (inject_Z (Z.of_nat n_residents) / resident_staff_ratio)%Q).

(** The staff count of facility [nf]: [ratio_tape nf] is the stream's value
    when that facility's ratio is drawn. *)
Definition n_staff_of (KC_resident_staff_ratios : list Q)
    (ratio_tape : nat -> nat) (nf : nat) (fc : list Z) : result Z :=
  resident_staff_ratio ← choice KC_resident_staff_ratios (ratio_tape nf);
  staff_needed (length fc) resident_staff_ratio.

(** [for nf, fc in enumerate(facilities)], from facility [nf] on;
    [age_tape nf i] is the stream's value at staff slot [i] of facility
    [nf]. *)
Fixpoint assign_facilities_staff (KC_resident_staff_ratios : list Q)
    (ratio_tape : nat -> nat) (age_tape : nat -> nat -> nat) (nf : nat)
    (facilities : list (list Z)) (w : workers)
    (facilities_staff : list (list Z)) (facilities_staff_uids : list (list uid))
  : result (list (list Z) * list (list uid) * workers) :=
  match facilities with
  | [] => Ok (facilities_staff, facilities_staff_uids, w)
  | fc :: rest =>
    n_staff ← n_staff_of KC_resident_staff_ratios ratio_tape nf fc;
    '(new_staff, new_staff_uids, w') ←
      assign_staff (Z.to_nat n_staff) (age_tape nf) 0 w [] [];
    assign_facilities_staff KC_resident_staff_ratios ratio_tape age_tape
      (S nf) rest w' (facilities_staff ++ [new_staff])
      (facilities_staff_uids ++ [new_staff_uids])
  end.


(** *** Reading the worker bookkeeping *)


(** The eligible uids at age [a]. *)
Definition uids_at (w : workers) (a : Z) : list uid :=
  default [] (potential_worker_uids_by_age w !! a).






(** ** The contact graph (lines 240-285) *)

(** The keys of a person's ['contacts'] dictionary: 'H', 'S', 'W', 'C' and
    'LTCF'. *)
Inductive layer : Type :=
| layer_H
| layer_S
| layer_W
| layer_C
| layer_LTCF.

#[global] Instance layer_eq_dec : EqDecision layer.
Proof. solve_decision. Defined.

(** One entry of [popdict]. [loc] is always [None] and is left out. *)
Record person : Type := Person {
  age : Z;
  sex : Z;
  contacts : layer -> gset uid;
  snf_res : option Z;
  snf_staff : option Z
}.

(** [popdict[uid]['contacts'][k] = s] *)
Definition set_contacts (k : layer) (s : gset uid) (p : person) : person :=
  {| age := age p; sex := sex p;
     contacts := fun k' => if decide (k' = k) then s else contacts p k';
     snf_res := snf_res p; snf_staff := snf_staff p |}.

(** [popdict[uid]['snf_res'] = 1] *)
Definition set_snf_res (p : person) : person :=
  {| age := age p; sex := sex p; contacts := contacts p;
     snf_res := Some 1; snf_staff := snf_staff p |}.

(** [popdict[uid]['snf_staff'] = 1] *)
Definition set_snf_staff (p : person) : person :=
  {| age := age p; sex := sex p; contacts := contacts p;
     snf_res := snf_res p; snf_staff := Some 1 |}.

(** [set(l)] *)
Definition set_of (l : list uid) : gset uid := list_to_set l.

(** [s.remove(x)]: a KeyError when [x] is not in [s]. *)
Definition set_remove (x : uid) (s : gset uid) : result (gset uid) :=
  if decide (x ∈ s) then Ok (s ∖ {[x]}) else Raise KeyError.

(** [for x in l: st = f(st, x)] where [f] may raise. *)
Fixpoint for_each {A St : Type} (f : St -> A -> result St) (l : list A)
    (st : St) : result St :=
  match l with
  | [] => Ok st
  | x :: l' => st' ← f st x; for_each f l' st'
  end.

(** [for n, x in enumerate(l): st = f(st, n, x)], counting from [n]. *)
Fixpoint for_each_enumerate {A St : Type} (f : St -> nat -> A -> result St)
    (n : nat) (l : list A) (st : St) : result St :=
  match l with
  | [] => Ok st
  | x :: l' => st' ← f st n x; for_each_enumerate f (S n) l' st'
  end.

(** The first loop: one fresh entry per uid of [age_by_uid_dic] (held in
    its iteration order), all five contact sets empty;
    [np.random.randint(2)] is the stream's value reduced modulo 2. *)
Fixpoint init_popdict (sex_tape : nat -> nat) (i : nat)
    (age_by_uid_dic : list (uid * Z)) (popdict : gmap uid person)
  : gmap uid person :=
  match age_by_uid_dic with
  | [] => popdict
  | (u, a) :: rest =>
    init_popdict sex_tape (S i) rest
      (<[u := {| age := a; sex := Z.of_nat (sex_tape i mod 2);
                 contacts := fun _ => ∅;
                 snf_res := None; snf_staff := None |}]> popdict)
  end.

(** The body shared by the five inner loops: the contact set of layer [k]
    of [u] becomes [group] without [u], and [flag] marks the role. *)
Definition link (k : layer) (group : gset uid) (flag : person -> person)
    (popdict : gmap uid person) (u : uid) : result (gmap uid person) :=
  p ← getitem (popdict !! u);
  s ← set_remove u group;
  Ok (<[u := flag (set_contacts k s p)]> popdict).

(** [for uid in group: popdict[uid]['contacts'][k] = set(group) - {uid}] *)
Definition link_group (k : layer) (popdict : gmap uid person)
    (group : list uid) : result (gmap uid person) :=
  for_each (link k (set_of group) id) group popdict.

(** The body of [for nf, facility in enumerate(facilities_by_uids)]. *)
Definition link_facility (facilities_staff_uids : list (list uid))
    (popdict : gmap uid person) (nf : nat) (facility : list uid)
  : result (gmap uid person) :=
  facility_staff ← index facilities_staff_uids nf;
  let everyone := set_of facility ∪ set_of facility_staff in
  popdict ← for_each (link layer_LTCF everyone set_snf_res) facility popdict;
  for_each (link layer_W everyone set_snf_staff) facility_staff popdict.

Definition make_contacts_with_facilities_from_microstructure_objects
    (sex_tape : nat -> nat) (age_by_uid_dic : list (uid * Z))
    (homes_by_uids schools_by_uids workplaces_by_uids : list (list uid))
    (facilities_by_uids facilities_staff_uids : list (list uid))
  : result (gmap uid person) :=
  let popdict := init_popdict sex_tape 0 age_by_uid_dic ∅ in
  let homes_by_uids :=
    slice_from homes_by_uids (Z.of_nat (length facilities_by_uids)) in
  popdict ← for_each_enumerate (link_facility facilities_staff_uids) 0
              facilities_by_uids popdict;
  popdict ← for_each (link_group layer_H) homes_by_uids popdict;
  popdict ← for_each (link_group layer_S) schools_by_uids popdict;
  for_each (link_group layer_W) workplaces_by_uids popdict.

(** The contact set of [u] in layer [k] (empty for a uid with no entry). *)
Definition contacts_of (popdict : gmap uid person) (u : uid) (k : layer)
  : gset uid :=
  match popdict !! u with
  | Some p => contacts p k
  | None => ∅
  end.

(** No uid is in two groups, nor twice in one. *)
Definition disjoint_groups (groups : list (list uid)) : Prop :=
  NoDup (concat groups).




(** ** The samplers of the [synthpops] package *)

(** The functions of [sp] and of [np.random] that household generation
    calls. Their code is outside this module; each takes the state [R] of
    the random stream and hands it back. The tables a call only passes
    through ([hha_by_size_counts], [hha_brackets]) are part of the sampler.
    None of them writes to the age distribution it is given. *)
Record samplers (R : Type) : Type := Samplers {
  (** [sp.resample_age(single_year_age_distr, age)] *)
  resample_age : gmap Z Q -> Z -> R -> Z * R;
  (** [sp.sample_from_range(single_year_age_distr, min_age, max_age)] *)
  sample_from_range : gmap Z Q -> Z -> Z -> R -> Z * R;
  (** [sp.sample_single(distr)]: an index into [distr] *)
  sample_single : list Q -> R -> nat * R;
  (** [sp.generate_household_head_age_by_size(.., size, distr)] *)
  generate_household_head_age_by_size : nat -> gmap Z Q -> R -> Z * R;
  (** [sp.generate_living_alone(hh_sizes, .., distr)]: rows of one age *)
  generate_living_alone : list nat -> gmap Z Q -> R -> list (list Z) * R;
  (** [sp.generate_household_sizes_from_fixed_pop_size(N, hh_size_distr)] *)
  generate_household_sizes_from_fixed_pop_size : Z -> R -> list nat * R;
  (** [np.random.binomial(1, p)] *)
  binomial : Q -> R -> bool * R;
  (** [np.random.shuffle(homes)] *)
  shuffle : list (list Z) -> R -> list (list Z) * R
}.

Arguments resample_age {R}.
Arguments sample_from_range {R}.
Arguments sample_single {R}.
Arguments generate_household_head_age_by_size {R}.
Arguments generate_living_alone {R}.
Arguments generate_household_sizes_from_fixed_pop_size {R}.
Arguments binomial {R}.
Arguments shuffle {R}.

(** ** The age resampler (lines 36-68) *)

(** [if a == at: if np.random.binomial(1, p=p): a = sp.resample_age(d, a)] *)
Definition resample_if {R : Type} (sp : samplers R) (d : gmap Z Q) (at_age : Z)
    (p : Q) (ar : Z * R) : Z * R :=
  let '(a, r) := ar in
  if a =? at_age then
    let '(coin, r) := binomial sp p r in
    if coin then resample_age sp d a r else (a, r)
  else (a, r).

Definition resample_age_uk {R : Type} (sp : samplers R)
    (exp_age_distr : gmap Z Q) (a : Z) (r : R) : Z * R :=
  let ar := resample_age sp exp_age_distr a r in
  let ar := resample_if sp exp_age_distr 7 (25 # 100) ar in
  let ar := resample_if sp exp_age_distr 6 (25 # 100) ar in
  let ar := resample_if sp exp_age_distr 5 (2 # 10) ar in
  let ar := resample_if sp exp_age_distr 0 0 ar in
  let ar := resample_if sp exp_age_distr 1 0 ar in
  let ar := resample_if sp exp_age_distr 2 0 ar in
  let ar := resample_if sp exp_age_distr 4 0 ar in
  ar.

(** ** Households (lines 72-170) *)

(** [l[0]] and [l[-1]] *)
Definition first_last (l : list Z) : result (Z * Z) :=
  match l with
  | [] => Raise IndexError
  | x :: _ => Ok (x, List.last l x)
  end.

(** The tables household generation reads. *)
Record household_tables : Type := HouseholdTables {
  age_brackets : gmap nat (list Z);
  age_by_brackets_dic : gmap Z nat;
  (** [contact_matrix_dic['H']], row by row *)
  contact_matrix_H : list (list Q)
}.

Definition ya_coin : Q := 15 # 100.

(** One turn of [for n in range(1, size)]: the age of one more member. *)
Definition generate_member {R : Type} (sp : samplers R) (t : household_tables)
    (b_prob : list Q) (single_year_age_distr : gmap Z Q) (r : R)
  : result (Z * R) :=
  let '(bi, r) := sample_single sp b_prob r in
  bracket ← getitem (age_brackets t !! bi);
  '(lo, hi) ← first_last bracket;
  let '(ai, r) := sample_from_range sp single_year_age_distr lo hi r in
  let '(ai, r) :=
    if (5 <? ai) && (ai <=? 20) then
      let '(coin, r) := binomial sp ya_coin r in
      if coin then sample_from_range sp single_year_age_distr 25 32 r
      else (ai, r)
    else (ai, r) in
  Ok (resample_age_uk sp single_year_age_distr ai r).

(** [for n in range(1, size)], [todo] turns left. *)
Fixpoint generate_members {R : Type} (sp : samplers R) (t : household_tables)
    (b_prob : list Q) (single_year_age_distr : gmap Z Q) (todo : nat) (r : R)
  : result (list Z * R) :=
  match todo with
  | O => Ok ([], r)
  | S todo' =>
    '(ai, r) ← generate_member sp t b_prob single_year_age_distr r;
    '(rest, r) ← generate_members sp t b_prob single_year_age_distr todo' r;
    Ok (ai :: rest, r)
  end.

(** One turn of [for h in range(hh_sizes[size-1])]: one row of [homes]. *)
Definition generate_household {R : Type} (sp : samplers R)
    (t : household_tables) (size : nat) (single_year_age_distr : gmap Z Q)
    (r : R) : result (list Z * R) :=
  let '(hha, r) :=
    generate_household_head_age_by_size sp size single_year_age_distr r in
  b ← getitem (age_by_brackets_dic t !! hha);
  b_prob ← index (contact_matrix_H t) b;
  '(members, r) ←
    generate_members sp t b_prob single_year_age_distr (size - 1) r;
  Ok (hha :: members, r).

(** [for h in range(hh_sizes[size-1])], [todo] turns left. *)
Fixpoint generate_households {R : Type} (sp : samplers R)
    (t : household_tables) (size : nat) (single_year_age_distr : gmap Z Q)
    (todo : nat) (r : R) : result (list (list Z) * R) :=
  match todo with
  | O => Ok ([], r)
  | S todo' =>
    '(home, r) ← generate_household sp t size single_year_age_distr r;
    '(rest, r) ←
      generate_households sp t size single_year_age_distr todo' r;
    Ok (home :: rest, r)
  end.

Definition generate_larger_households {R : Type} (sp : samplers R)
    (size : nat) (hh_sizes : list nat) (t : household_tables)
    (single_year_age_distr : gmap Z Q) (r : R)
  : result (list (list Z) * R) :=
  count ← index hh_sizes (size - 1);
  generate_households sp t size single_year_age_distr count r.

(** [for h in homes_dic[1]: single_year_age_distr[h[0]] -= 1.0/N] *)
Definition remove_living_alone (N : Z) (single_year_age_distr : gmap Z Q)
    (h : list Z) : result (gmap Z Q) :=
  a ← index h 0;
  if N =? 0 then Raise ZeroDivisionError
  else
    mass ← getitem (single_year_age_distr !! a);
    Ok (<[a := (mass - 1 / inject_Z N)%Q]> single_year_age_distr).

(** [for s in range(2, 8): homes_dic[s] = generate_larger_households(s, ..)],
    over the sizes listed. *)
Fixpoint generate_sizes {R : Type} (sp : samplers R) (sizes : list nat)
    (hh_sizes : list nat) (t : household_tables)
    (single_year_age_distr : gmap Z Q) (r : R)
  : result (list (list (list Z)) * R) :=
  match sizes with
  | [] => Ok ([], r)
  | s :: sizes' =>
    '(homes_s, r) ←
      generate_larger_households sp s hh_sizes t single_year_age_distr r;
    '(rest, r) ← generate_sizes sp sizes' hh_sizes t single_year_age_distr r;
    Ok (homes_s :: rest, r)
  end.

(** What [generate_all_households] returns and leaves behind:
    [homes_dic] (entry [s-1] holds the households of size [s]), the
    shuffled [homes], the age distribution it was given, as it has left it,
    and the random stream. *)
Record all_households (R : Type) : Type := AllHouseholds {
  homes_dic : list (list (list Z));
  homes : list (list Z);
  distr_after : gmap Z Q;
  rng_after : R
}.

Arguments AllHouseholds {R}.
Arguments homes_dic {R}.
Arguments homes {R}.
Arguments distr_after {R}.
Arguments rng_after {R}.

Definition generate_all_households {R : Type} (sp : samplers R) (N : Z)
    (hh_sizes : list nat) (t : household_tables)
    (single_year_age_distr : gmap Z Q) (r : R) : result (all_households R) :=
  let '(alone, r) := generate_living_alone sp hh_sizes single_year_age_distr r in
  single_year_age_distr ←
    for_each (remove_living_alone N) alone single_year_age_distr;
  '(larger, r) ←
    generate_sizes sp (seq 2 6) hh_sizes t single_year_age_distr r;
  let homes_dic := alone :: larger in
  let '(homes, r) := shuffle sp (concat homes_dic) r in
  Ok (AllHouseholds homes_dic homes single_year_age_distr r).

(** The mass a distribution holds. *)
Definition total_mass (d : gmap Z Q) : Q :=
  map_fold (fun _ q acc => (q + acc)%Q) 0%Q d.

(** The people in a list of groups. *)
Definition headcount {A : Type} (groups : list (list A)) : nat :=
  length (concat groups).


(** ** [generate_microstructure_with_faciities] *)

(** The functions of [sp] the pipeline calls around household generation. *)
Record collaborators (R : Type) : Type := Collaborators {
  (** [sp.norm_dic(dic)] *)
  norm_dic : gmap Z Z -> gmap Z Q;
  (** [sp.assign_uids_by_homes(homes)]: [homes_by_uids], and
      [age_by_uid_dic] in its iteration order *)
  assign_uids_by_homes :
    list (list Z) -> R -> list (list uid) * list (uid * Z) * R
}.

Arguments norm_dic {R}.
Arguments assign_uids_by_homes {R}.

(** [range(lo, hi)] *)
Definition range (lo hi : Z) : list Z :=
  map (fun i => lo + Z.of_nat i) (seq 0 (Z.to_nat (hi - lo))).

(** *** Expected facility users by age (lines 415-446) *)

(** The key of [est_ltcf_user_by_age_brackets_perc] the [if]/[elif] chain
    reads for age [a] (its last test, [a < 101], holds on
    [range(60, 101)]). *)
Definition usage_key (a : Z) : string :=
  if a <? 65 then "60-64"
  else if a <? 75 then "70-74"
  else if a <? 85 then "80-84"
  else "85-100".

(** The location's age tables of one census year. *)
Record age_tables : Type := AgeTables {
  age_distr : gmap nat Q;
  census_age_brackets : gmap nat (list Z);
  census_age_by_brackets_dic : gmap Z nat
}.

(** [age_distr[b]/len(age_brackets[b])] for the bracket [b] of age [a]. *)
Definition mass_per_year (t : age_tables) (a : Z) : result Q :=
  b ← getitem (census_age_by_brackets_dic t !! a);
  mass ← getitem (age_distr t !! b);
  bracket ← getitem (census_age_brackets t !! b);
  if (length bracket =? 0)%nat then Raise ZeroDivisionError
  else Ok (mass / inject_Z (Z.of_nat (length bracket)))%Q.

(** The value [expected_users_by_age[a]] ends with. *)
Definition expected_users_at (gen_pop_size : Z) (t18 : age_tables)
    (est_ltcf_user_by_age_brackets_perc : gmap string Q) (a : Z)
  : result Z :=
  b ← getitem (census_age_by_brackets_dic t18 !! a);
  mass ← getitem (age_distr t18 !! b);
  bracket ← getitem (census_age_brackets t18 !! b);
  if (length bracket =? 0)%nat then Raise ZeroDivisionError
  else
    perc ← getitem (est_ltcf_user_by_age_brackets_perc !! usage_key a);
    Ok (ceil (inject_Z gen_pop_size * mass
              / inject_Z (Z.of_nat (length bracket)) * perc)%Q).

(** [expected_users_by_age], in the order its keys are inserted. *)
Definition expected_users_by_age (gen_pop_size : Z) (t18 : age_tables)
    (est_ltcf_user_by_age_brackets_perc : gmap string Q)
  : result (list (Z * Z)) :=
  traverse
    (fun a =>
       users ← expected_users_at gen_pop_size t18
                 est_ltcf_user_by_age_brackets_perc a;
       Ok (a, users))
    (range 60 101).

(** *** From the facilities to the households (lines 491-523) *)

Definition max_age : Z := 100.

(** [expected_age_distr] and [expected_age_count], over [0..max_age]. *)
Definition expected_age_tables (gen_pop_size : Z) (t16 : age_tables)
  : result (gmap Z Q * gmap Z Z) :=
  rows ← traverse
           (fun a => m ← mass_per_year t16 a;
                     Ok (a, m, int_of (inject_Z gen_pop_size * m)%Q))
           (range 0 (max_age + 1));
  Ok (list_to_map (map (fun row => (fst (fst row), snd (fst row))) rows),
      list_to_map (map (fun row => (fst (fst row), snd row)) rows)).

(** [for a in expected_users_by_age: count[a] -= expected_users_by_age[a]] *)
Definition subtract_users (count : gmap Z Z) (au : Z * Z)
  : result (gmap Z Z) :=
  c ← getitem (count !! fst au);
  Ok (<[fst au := c - snd au]> count).

(** What the stage computes: the arguments it hands to
    [generate_all_households], the adjusted distribution it has computed
    before, and what comes back. *)
Record household_stage_result (R : Type) : Type := HouseholdStage {
  hs_expected_age_distr : gmap Z Q;
  hs_ltcf_adjusted_age_count : gmap Z Z;
  hs_ltcf_adjusted_age_distr : gmap Z Q;
  hs_n : Z;
  hs_hh_sizes_drawn : list nat;
  hs_passed_age_distr : gmap Z Q;
  hs_households : all_households R;
  hs_all_homes : list (list Z);
  hs_homes_by_uids : list (list uid);
  hs_age_by_uid_dic : list (uid * Z);
  hs_facilities_by_uids : list (list uid);
  hs_rng_end : R
}.

Arguments HouseholdStage {R}.
Arguments hs_expected_age_distr {R}.
Arguments hs_ltcf_adjusted_age_count {R}.
Arguments hs_ltcf_adjusted_age_distr {R}.
Arguments hs_n {R}.
Arguments hs_hh_sizes_drawn {R}.
Arguments hs_passed_age_distr {R}.
Arguments hs_households {R}.
Arguments hs_all_homes {R}.
Arguments hs_homes_by_uids {R}.
Arguments hs_age_by_uid_dic {R}.
Arguments hs_facilities_by_uids {R}.
Arguments hs_rng_end {R}.

Definition household_stage {R : Type} (sp : samplers R)
    (co : collaborators R) (gen_pop_size : Z) (t16 : age_tables)
    (contact_matrix_H : list (list Q)) (expected_users_by_age : list (Z * Z))
    (facilities : list (list Z)) (r : R)
  : result (household_stage_result R) :=
  '(expected_age_distr, expected_age_count) ←
    expected_age_tables gen_pop_size t16;
  ltcf_adjusted_age_count ←
    for_each subtract_users expected_users_by_age expected_age_count;
  let ltcf_adjusted_age_distr := norm_dic co ltcf_adjusted_age_count in
  let n := gen_pop_size - Zsum (map (fun f => Z.of_nat (length f)) facilities) in
  let '(hh_sizes, r) := generate_household_sizes_from_fixed_pop_size sp n r in
  let tables :=
    {| age_brackets := census_age_brackets t16;
       age_by_brackets_dic := census_age_by_brackets_dic t16;
       contact_matrix_H := contact_matrix_H |} in
  (* generate_all_households(n, hh_sizes, .., deepcopy(expected_age_distr)) *)
  let passed := expected_age_distr in
  hh ← generate_all_households sp n hh_sizes tables passed r;
  let homes := facilities ++ homes hh in
  let '(homes_by_uids, age_by_uid_dic, r) :=
    assign_uids_by_homes co homes (rng_after hh) in
  let facilities_by_uids :=
    slice_to homes_by_uids (Z.of_nat (length facilities)) in
  Ok (HouseholdStage expected_age_distr ltcf_adjusted_age_count
        ltcf_adjusted_age_distr n hh_sizes passed hh homes homes_by_uids
        age_by_uid_dic facilities_by_uids r).


(** The people [hh_sizes] accounts for: [hh_sizes[s-1]] households of every
    size [s], sizes counted from [s]. *)
Fixpoint people_from (s : nat) (hh_sizes : list nat) : nat :=
  match hh_sizes with
  | [] => O
  | count :: rest => (s * count + people_from (S s) rest)%nat
  end.

Definition people_in (hh_sizes : list nat) : nat := people_from 1 hh_sizes.


(** ** The resampler as the specification words it *)

(** [a] after a reapplication of the base procedure with probability [p]. *)
Definition reapply_with_probability {R : Type} (sp : samplers R)
    (d : gmap Z Q) (p : Q) (a : Z) (r : R) : Z * R :=
  let '(coin, r) := binomial sp p r in
  if coin then resample_age sp d a r else (a, r).

(** The specification's reading of the resampler: the base procedure is
    reapplied to the candidate age with probability 0.2 at age 5, 0.25 at
    ages 6 and 7 and 0 at ages 0, 1, 2 and 4; any other age is returned as
    it is. *)
Definition resample_age_uk_as_specified {R : Type} (sp : samplers R)
    (d : gmap Z Q) (a : Z) (r : R) : Z * R :=
  if a =? 5 then reapply_with_probability sp d (2 # 10) a r
  else if (a =? 6) || (a =? 7) then reapply_with_probability sp d (25 # 100) a r
  else if (a =? 0) || (a =? 1) || (a =? 2) || (a =? 4)
       then reapply_with_probability sp d 0 a r
  else (a, r).

(** An age the distribution gives a positive mass. *)
Definition in_support (d : gmap Z Q) (a : Z) : Prop :=
  exists m, d !! a = Some m /\ (0 < m)%Q.

(** ** A fixed run *)

(** The mass a distribution gives an age (0 for an age it lacks). *)
Definition mass_at (d : gmap Z Q) (a : Z) : Q := default 0%Q (d !! a).

(** A head age drawn from [d]: 60 whenever [d] gives 60 a positive mass. *)
Definition fixed_head_age (d : gmap Z Q) : Z :=
  if Qpos_bool (mass_at d 60) then 60 else 30.

(** Samplers without randomness, to run the stages on concrete inputs: the
    base resampler answers 31, range sampling answers the lower bound,
    bracket sampling the first bracket, every coin comes up 0, everybody
    lives alone, and the shuffle keeps the order. *)
Definition fixed_samplers : samplers unit :=
  {| resample_age := fun _ _ r => (31, r);
     sample_from_range := fun _ lo _ r => (lo, r);
     sample_single := fun _ r => (O, r);
     generate_household_head_age_by_size := fun _ d r => (fixed_head_age d, r);
     generate_living_alone :=
       fun hh_sizes d r => (repeat [fixed_head_age d] (nth 0 hh_sizes O), r);
     generate_household_sizes_from_fixed_pop_size :=
       fun N r => ([Z.to_nat N; O; O; O; O; O; O], r);
     binomial := fun _ r => (false, r);
     shuffle := fun l r => (l, r) |}.

(** Modelled from the spec: [sp.norm_dic], of which only the call is in this
    module. The specification has the adjusted counts "renormalized into a
    distribution": every count is divided by the sum of all counts. *)
Definition norm_dic_model (dic : gmap Z Z) : gmap Z Q :=
  let total := map_fold (fun _ c acc => c + acc) 0 dic in
  (fun c => (inject_Z c / inject_Z total)%Q) <$> dic.

(** Uid assignment for the fixed run: member [j] of group [i] gets the uid
    made of [i] and [j]. *)
Definition fixed_uid (i j : nat) : uid :=
  String (Ascii.ascii_of_nat (65 + i)) (String (Ascii.ascii_of_nat (65 + j)) EmptyString).

Definition fixed_assign_uids (homes : list (list Z)) (r : unit)
  : list (list uid) * list (uid * Z) * unit :=
  let tagged :=
    imap (fun i home => imap (fun j a => (fixed_uid i j, a)) home) homes in
  (map (map fst) tagged, concat tagged, r).

Definition fixed_collaborators : collaborators unit :=
  {| norm_dic := norm_dic_model; assign_uids_by_homes := fixed_assign_uids |}.

(** One census bracket holding every age from 0 to 100. *)
Definition one_bracket_tables : age_tables :=
  {| age_distr := {[ O := 1%Q ]};
     census_age_brackets := {[ O := range 0 101 ]};
     census_age_by_brackets_dic :=
       list_to_map (map (fun a => (a, O)) (range 0 101)) |}.


(** Household tables with the single bracket [[30]]. *)
Definition small_tables : household_tables :=
  {| age_brackets := {[ O := [30] ]};
     age_by_brackets_dic := {[ 30 := O ]};
     contact_matrix_H := [[1%Q]] |}.


(** Worker bookkeeping with two workers to assign, both aged 30. *)
Definition small_workers : workers :=
  {| potential_worker_uids := {[ "w1" := 30; "w2" := 30 ]};
     potential_worker_uids_by_age :=
       list_to_map
         (map (fun a => (a, if a =? 30 then ["w1"; "w2"] else []))
            staff_age_range);
     workers_by_age_to_assign_count :=
       list_to_map (map (fun a => (a, if a =? 30 then 2 else 0))
                      staff_age_range) |}.


(** Usage percentages for the four brackets the calibration reads. *)
Definition small_usage_perc : gmap string Q :=
  list_to_map
    [("60-64", 1 # 100); ("70-74", 2 # 100); ("80-84", 5 # 100);
     ("85-100", 15 # 100)]%Q.


(** *** Usage percentages by age bracket (lines 296-394) *)

(** [facillity_users[fk]]: the users of one facility type and the share of
    its users in each of the four survey brackets (already divided by
    100). *)
Record facility_users : Type := FacilityUsers {
  users_total : Z;
  under_65 : Q;
  from_65_to_74 : Q;
  from_75_to_84 : Q;
  from_85 : Q
}.

(** The Census Bureau numbers for 2018. *)
Definition state_pop_2018 : Q := 7535591.

Definition state_age_distr_2018 : gmap string Q :=
  list_to_map
    [("60-64", (63 # 10) / 100); ("65-74", (95 # 10) / 100);
     ("75-84", (43 # 10) / 100); ("85-100", (18 # 10) / 100)]%Q.

(** The keys of [est_seattle_users_2018], in their order. *)
Definition survey_brackets : list string :=
  ["60-64"; "65-74"; "75-84"; "85-100"].

(** The share the [if]/[elif] chain of lines 369-376 adds to bracket [b]:
    'Under 65' goes to '60-64', '65–74' to '65-74', '75–84' to '75-84' and
    '85 and over' to '85-100'. *)
Definition bracket_share (b : string) (fk : facility_users) : Q :=
  if decide (b = "60-64") then under_65 fk
  else if decide (b = "65-74") then from_65_to_74 fk
  else if decide (b = "75-84") then from_75_to_84 fk
  else from_85 fk.

(** [est_seattle_users_2018[b] += share * total * pop/state_pop_2018] *)
Definition add_users (pop : Q) (fk : facility_users) (est : gmap string Q)
    (b : string) : result (gmap string Q) :=
  old ← getitem (est !! b);
  Ok (<[b := (old + bracket_share b fk * inject_Z (users_total fk) * pop
                    / state_pop_2018)%Q]> est).

(** [est_seattle_users_2018] after the loops of lines 365-377. *)
Definition est_seattle_users_2018 (pop : Q)
    (facillity_users : list facility_users) : result (gmap string Q) :=
  for_each (fun est fk => for_each (add_users pop fk) survey_brackets est)
    facillity_users
    (list_to_map (map (fun b => (b, 0%Q)) survey_brackets)).

(** [perc[b] = est[b]/state_age_distr_2018[b]/pop] *)
Definition usage_perc_of (pop : Q) (est perc : gmap string Q) (b : string)
  : result (gmap string Q) :=
  e ← getitem (est !! b);
  d ← getitem (state_age_distr_2018 !! b);
  if Qeq_bool d 0 || Qeq_bool pop 0 then Raise ZeroDivisionError
  else Ok (<[b := (e / d / pop)%Q]> perc).

(** [d[new] = d[old]] *)
Definition copy_key (new old : string) (d : gmap string Q)
  : result (gmap string Q) :=
  v ← getitem (d !! old); Ok (<[new := v]> d).

(** [est_ltcf_user_by_age_brackets_perc] as lines 384-394 leave it. *)
Definition est_ltcf_user_by_age_brackets_perc (pop : Q)
    (facillity_users : list facility_users) : result (gmap string Q) :=
  est ← est_seattle_users_2018 pop facillity_users;
  perc ← for_each (usage_perc_of pop est) survey_brackets ∅;
  perc ← copy_key "65-69" "65-74" perc;
  perc ← copy_key "70-74" "65-74" perc;
  perc ← copy_key "75-79" "75-84" perc;
  perc ← copy_key "80-84" "75-84" perc;
  Ok (delete "75-84" (delete "65-74" perc)).

(** [pop = 2.25e6], the King County population of line 346. *)
Definition king_county_pop : Q := 2250000.

(** The users of bracket [b] over all facility types, per state resident:
    the sum of [share * total / state_pop_2018]. *)
Definition users_per_state_resident (b : string)
    (facillity_users : list facility_users) : Q :=
  Qsum (map (fun fk => (bracket_share b fk * inject_Z (users_total fk)
                        / state_pop_2018)%Q) facillity_users).

(** The survey bracket whose percentage a six-bracket key carries. *)
Definition survey_bracket_of (k : string) : string :=
  if decide (k = "65-69") then "65-74"
  else if decide (k = "70-74") then "65-74"
  else if decide (k = "75-79") then "75-84"
  else if decide (k = "80-84") then "75-84"
  else k.

(** The six keys the table ends with. *)
Definition local_brackets : list string :=
  ["60-64"; "65-69"; "70-74"; "75-79"; "80-84"; "85-100"].


(** One facility type with a thousand users, for runs of the calibration. *)
Definition small_facility_users : list facility_users :=
  [FacilityUsers 1000 (1 # 10) (2 # 10) (3 # 10) (4 # 10)].


(** The uids with an entry in [age_by_uid_dic]. *)
Definition known_uids (age_by_uid_dic : list (uid * Z)) : gset uid :=
  list_to_set (map fst age_by_uid_dic).

(** The groups the assembler links: the facilities, a staff list for each
    of them, the ordinary households, the schools and the workplaces. *)
Definition linked_groups
    (homes_by_uids schools_by_uids workplaces_by_uids : list (list uid))
    (facilities_by_uids facilities_staff_uids : list (list uid))
  : list (list uid) :=
  facilities_by_uids
  ++ take (length facilities_by_uids) facilities_staff_uids
  ++ drop (length facilities_by_uids) homes_by_uids
  ++ schools_by_uids ++ workplaces_by_uids.


(** The groups the three plain passes of the assembler link in layer [k]:
    the households that come after the facilities, the schools, the
    workplaces. *)
Definition plain_groups (k : layer)
    (homes_by_uids schools_by_uids workplaces_by_uids : list (list uid))
    (facilities_by_uids : list (list uid)) : list (list uid) :=
  match k with
  | layer_H => drop (length facilities_by_uids) homes_by_uids
  | layer_S => schools_by_uids
  | layer_W => workplaces_by_uids
  | _ => []
  end.

(** Everyone the assembler gives a contact set in layer [k]. *)
Definition layer_members (k : layer)
    (homes_by_uids schools_by_uids workplaces_by_uids : list (list uid))
    (facilities_by_uids facilities_staff_uids : list (list uid))
  : list uid :=
  match k with
  | layer_LTCF => concat facilities_by_uids
  | layer_W =>
      concat (take (length facilities_by_uids) facilities_staff_uids)
      ++ concat workplaces_by_uids
  | _ => concat (plain_groups k homes_by_uids schools_by_uids
                   workplaces_by_uids facilities_by_uids)
  end.



(** The uids of [new_staff_uids] whose age in [new_staff] is [a], in the
    order of the lists (the two are read side by side). *)
Fixpoint staff_of_age (a : Z) (new_staff : list Z) (new_staff_uids : list uid)
  : list uid :=
  match new_staff, new_staff_uids with
  | a' :: new_staff', u :: new_staff_uids' =>
    if decide (a' = a) then u :: staff_of_age a new_staff' new_staff_uids'
    else staff_of_age a new_staff' new_staff_uids'
  | _, _ => []
  end.






(** * Properties *)

(** ** Facility formation *)

Lemma choice_elem {A : Type} (l : list A) (r : nat) :
  l <> [] -> exists a, choice l r = Ok a /\ In a l.
Proof.
  intros Hl. destruct l as [|x l']; [congruence|].
  unfold choice, index.
  destruct (nth_error (x :: l') (r mod length (x :: l'))%nat) as [a|] eqn:E.
  - exists a. split; [reflexivity|]. eapply nth_error_In; eauto.
  - apply nth_error_None in E.
    pose proof (Nat.mod_upper_bound r (length (x :: l'))) as Hb.
    simpl in *. lia.
Qed.






(** ** Facility staff *)

Lemma bind_ok {A B : Type} (m : result A) (k : A -> result B) (b : B) :
  (m ≫= k) = Ok b -> exists a, m = Ok a /\ k a = Ok b.
Proof. destruct m; simpl; intros H; try discriminate. eauto. Qed.

(** A run that passes a boolean check has a value, and the value passes. *)
Lemma ok_run {A : Type} (m : result A) (check : A -> bool) :
  match m with Ok a => check a | _ => false end = true ->
  exists a, m = Ok a /\ check a = true.
Proof. destruct m; intros H; try discriminate. eauto. Qed.

(** Runs the binds whose first action is already a value or an error. *)
Ltac run_binds := cbn [mbind result_bind bind getitem].

Ltac bind_inv H x Hx :=
  apply bind_ok in H; destruct H as (x & Hx & H).

Lemma index_ok {A : Type} (l : list A) (i : nat) (a : A) :
  index l i = Ok a -> nth_error l i = Some a.
Proof. unfold index. destruct (nth_error l i); congruence. Qed.

Lemma index_lookup {A : Type} (l : list A) (i : nat) (a : A) :
  index l i = Ok a -> l !! i = Some a.
Proof.
  intros H. apply index_ok in H. revert i H.
  induction l as [|x l IH]; intros [|i] H; simpl in *;
    try discriminate; auto.
Qed.

Lemma getitem_ok {A : Type} (o : option A) (a : A) :
  getitem o = Ok a -> o = Some a.
Proof. destruct o; simpl; congruence. Qed.

Lemma support_In {A : Type} (a : list A) (p : list Q) (x : A) :
  In x (support a p) -> In x a.
Proof.
  unfold support. rewrite in_map_iff. intros ([y q] & <- & Hin).
  apply list_elem_of_In, list_elem_of_filter in Hin. destruct Hin as [_ Hin].
  apply list_elem_of_In in Hin. now apply in_combine_l in Hin.
Qed.

Lemma choice_p_In {A : Type} (a : list A) (p : option (list Q)) (r : nat)
    (x : A) :
  choice_p a p r = Ok x -> In x a.
Proof.
  unfold choice_p. destruct p as [p|]; [|discriminate].
  destruct (negb _); [discriminate|].
  destruct (existsb _ _); [discriminate|].
  destruct (negb _); [discriminate|].
  intros H. apply index_ok, nth_error_In in H. eapply support_In; eauto.
Qed.



Lemma assign_one_staff_ok (w : workers) (r : nat) (a : Z) (u : uid)
    (w' : workers) :
  assign_one_staff w r = Ok (a, u, w') ->
  In a staff_age_range
  /\ exists l' c,
       potential_worker_uids_by_age w !! a = Some (u :: l')
       /\ workers_by_age_to_assign_count w !! a = Some c
       /\ w' = {| potential_worker_uids := delete u (potential_worker_uids w);
                  potential_worker_uids_by_age :=
                    <[a := l']> (potential_worker_uids_by_age w);
                  workers_by_age_to_assign_count :=
                    <[a := c - 1]> (workers_by_age_to_assign_count w) |}.
Proof.
  unfold assign_one_staff. intros H.
  bind_inv H a_prob Hprob. bind_inv H aindex Hchoice.
  bind_inv H uids Huids. bind_inv H u0 Hu0. bind_inv H uids' Hrm.
  bind_inv H c Hc. injection H as <- <- <-.
  apply choice_p_In in Hchoice. split; [assumption|].
  apply getitem_ok in Huids, Hc. apply index_ok in Hu0.
  destruct uids as [|u1 l']; [discriminate|]. injection Hu0 as ->.
  simpl in Hrm. destruct (decide (u0 = u0)); [|congruence].
  injection Hrm as <-. exists l', c. auto.
Qed.






Lemma n_staff_of_ok (ratios : list Q) (ratio_tape : nat -> nat) (nf : nat)
    (fc : list Z) (n : Z) :
  n_staff_of ratios ratio_tape nf fc = Ok n ->
  exists ratio,
    choice ratios (ratio_tape nf) = Ok ratio
    /\ n = ceil (inject_Z (Z.of_nat (length fc)) / ratio)%Q.
Proof.
  unfold n_staff_of. intros H. bind_inv H ratio Hratio.
  exists ratio. split; [assumption|]. unfold staff_needed in H.
  destruct (Qeq_bool ratio 0); congruence.
Qed.



(** ** Running out of workers *)

















(** ** The contact graph *)


Lemma for_each_enumerate_inv {A St : Type} (P : St -> Prop)
    (f : St -> nat -> A -> result St) :
  (forall st n x st', P st -> f st n x = Ok st' -> P st') ->
  forall (l : list A) (n : nat) (st st' : St),
    P st -> for_each_enumerate f n l st = Ok st' -> P st'.
Proof.
  intros Hstep. induction l as [|x l IH]; intros n st st' HP Hrun.
  - simpl in Hrun. now injection Hrun as <-.
  - simpl in Hrun. bind_inv Hrun st1 Hst1. eauto.
Qed.

(** What one turn of an inner loop does to every contact set. *)
Lemma link_contacts (k : layer) (G : gset uid) (flag : person -> person)
    (pop pop' : gmap uid person) (u : uid) :
  (forall p, contacts (flag p) = contacts p) ->
  link k G flag pop u = Ok pop' ->
  u ∈ G
  /\ forall v k',
       contacts_of pop' v k'
       = if decide (k' = k /\ v = u) then G ∖ {[u]} else contacts_of pop v k'.
Proof.
  intros Hflag Hrun. unfold link in Hrun.
  bind_inv Hrun p Hp. bind_inv Hrun s Hs. injection Hrun as <-.
  apply getitem_ok in Hp. unfold set_remove in Hs.
  destruct (decide (u ∈ G)) as [HuG|]; [|discriminate]. injection Hs as <-.
  split; [assumption|]. intros v k'. unfold contacts_of.
  destruct (decide (v = u)) as [->|Hne].
  - rewrite lookup_insert_eq, Hflag, Hp. simpl.
    destruct (decide (k' = k)) as [->|Hk].
    + now rewrite decide_True by auto.
    + now rewrite decide_False by tauto.
  - rewrite lookup_insert_ne by congruence.
    now rewrite decide_False by tauto.
Qed.

(** What an inner loop does to every contact set. *)
Lemma for_each_link_contacts (k : layer) (G : gset uid)
    (flag : person -> person) :
  (forall p, contacts (flag p) = contacts p) ->
  forall (members : list uid) (pop pop' : gmap uid person),
    for_each (link k G flag) members pop = Ok pop' ->
    (forall u, u ∈ members -> u ∈ G)
    /\ forall v k',
         contacts_of pop' v k'
         = if decide (k' = k /\ v ∈ members) then G ∖ {[v]}
           else contacts_of pop v k'.
Proof.
  intros Hflag. induction members as [|u members IH]; intros pop pop' Hrun.
  - simpl in Hrun. injection Hrun as <-. split.
    + intros u Hu. apply elem_of_nil in Hu. destruct Hu.
    + intros v k'. rewrite decide_False; [reflexivity|].
      intros [_ Hv]. apply elem_of_nil in Hv. destruct Hv.
  - simpl in Hrun. bind_inv Hrun pop1 Hpop1.
    destruct (link_contacts k G flag pop pop1 u Hflag Hpop1) as [HuG H1].
    destruct (IH pop1 pop' Hrun) as [Hsub H2]. split.
    + intros v Hv. apply elem_of_cons in Hv as [->|Hv]; auto.
    + intros v k'. rewrite H2, H1.
      destruct (decide (k' = k /\ v ∈ members)) as [[-> Hv]|Hn].
      * rewrite decide_True; [reflexivity|]. split; [reflexivity|now right].
      * destruct (decide (k' = k /\ v = u)) as [[-> ->]|Hn'].
        -- rewrite decide_True; [reflexivity|]. split; [reflexivity|now left].
        -- rewrite decide_False; [reflexivity|].
           intros [-> Hv]. apply elem_of_cons in Hv as [->|Hv]; tauto.
Qed.

Lemma link_group_contacts (k : layer) (pop pop' : gmap uid person)
    (group : list uid) :
  link_group k pop group = Ok pop' ->
  forall v k',
    contacts_of pop' v k'
    = if decide (k' = k /\ v ∈ group) then set_of group ∖ {[v]}
      else contacts_of pop v k'.
Proof.
  intros Hrun.
  now apply (for_each_link_contacts k (set_of group) id (fun _ => eq_refl)
               group pop pop').
Qed.

Lemma link_facility_contacts (staff_uids : list (list uid))
    (pop pop' : gmap uid person) (nf : nat) (facility : list uid) :
  link_facility staff_uids pop nf facility = Ok pop' ->
  exists facility_staff,
    staff_uids !! nf = Some facility_staff
    /\ forall v k',
         contacts_of pop' v k'
         = if decide (k' = layer_W /\ v ∈ facility_staff)
           then (set_of facility ∪ set_of facility_staff) ∖ {[v]}
           else if decide (k' = layer_LTCF /\ v ∈ facility)
           then (set_of facility ∪ set_of facility_staff) ∖ {[v]}
           else contacts_of pop v k'.
Proof.
  unfold link_facility. intros Hrun.
  bind_inv Hrun facility_staff Hstaff. bind_inv Hrun pop1 Hpop1.
  apply index_lookup in Hstaff. exists facility_staff.
  split; [assumption|].
  destruct (for_each_link_contacts _ _ set_snf_res (fun _ => eq_refl) _ _ _
              Hpop1) as [_ H1].
  destruct (for_each_link_contacts _ _ set_snf_staff (fun _ => eq_refl) _ _ _
              Hrun) as [_ H2].
  intros v k'. rewrite H2, H1. reflexivity.
Qed.

Lemma init_popdict_empty (sex_tape : nat -> nat) :
  forall (items : list (uid * Z)) (i : nat) (pop : gmap uid person),
    (forall u k, contacts_of pop u k = ∅) ->
    forall u k, contacts_of (init_popdict sex_tape i items pop) u k = ∅.
Proof.
  induction items as [|[u0 a] items IH]; intros i pop Hpop u k; [auto|].
  simpl. apply IH. intros v k'. unfold contacts_of.
  destruct (decide (v = u0)) as [->|Hne].
  - now rewrite lookup_insert_eq.
  - rewrite lookup_insert_ne by congruence. apply Hpop.
Qed.

(** The four passes of the assembler, one after the other. *)
Lemma make_contacts_stages (sex_tape : nat -> nat)
    (age_by_uid_dic : list (uid * Z))
    (homes schools workplaces facilities staff : list (list uid))
    (popdict : gmap uid person) :
  make_contacts_with_facilities_from_microstructure_objects sex_tape
    age_by_uid_dic homes schools workplaces facilities staff = Ok popdict ->
  exists pop0 pop1 pop2 pop3,
    (forall u k, contacts_of pop0 u k = ∅)
    /\ for_each_enumerate (link_facility staff) 0 facilities pop0 = Ok pop1
    /\ for_each (link_group layer_H)
         (slice_from homes (Z.of_nat (length facilities))) pop1 = Ok pop2
    /\ for_each (link_group layer_S) schools pop2 = Ok pop3
    /\ for_each (link_group layer_W) workplaces pop3 = Ok popdict.
Proof.
  unfold make_contacts_with_facilities_from_microstructure_objects.
  intros Hrun. bind_inv Hrun pop1 H1. bind_inv Hrun pop2 H2.
  bind_inv Hrun pop3 H3.
  exists (init_popdict sex_tape 0 age_by_uid_dic ∅), pop1, pop2, pop3.
  repeat split; try assumption.
  apply init_popdict_empty. intros u k. unfold contacts_of.
  now rewrite lookup_empty.
Qed.

(** A pass over the groups of layer [k] leaves the other layers alone, and
    layer [k] of a uid that is in none of the groups. *)
Lemma link_groups_frame (k : layer) (groups : list (list uid))
    (pop pop' : gmap uid person) (v : uid) (k' : layer) :
  for_each (link_group k) groups pop = Ok pop' ->
  k' <> k \/ v ∉ concat groups ->
  contacts_of pop' v k' = contacts_of pop v k'.
Proof.
  revert pop. induction groups as [|g groups IH]; intros pop Hrun Hout.
  - simpl in Hrun. now injection Hrun as <-.
  - simpl in Hrun. bind_inv Hrun pop1 H1.
    rewrite (IH pop1 Hrun).
    + rewrite (link_group_contacts k pop pop1 g H1).
      rewrite decide_False; [reflexivity|]. intros [-> Hv].
      destruct Hout as [?|Hout]; [congruence|]. apply Hout. simpl.
      apply elem_of_app. now left.
    + destruct Hout as [?|Hout]; [now left|right].
      intros Hv. apply Hout. simpl. apply elem_of_app. now right.
Qed.

(** The facility pass only writes layers 'W' and 'LTCF'. *)
Lemma link_facilities_frame (staff : list (list uid))
    (facilities : list (list uid)) (n : nat) (pop pop' : gmap uid person)
    (v : uid) (k' : layer) :
  for_each_enumerate (link_facility staff) n facilities pop = Ok pop' ->
  k' <> layer_W -> k' <> layer_LTCF ->
  contacts_of pop' v k' = contacts_of pop v k'.
Proof.
  intros Hrun HW HL.
  apply (for_each_enumerate_inv
           (fun st => contacts_of st v k' = contacts_of pop v k')
           (link_facility staff)) with (l := facilities) (n := n) (st := pop);
    [|reflexivity|assumption].
  intros st nf fc st' Hst Hstep.
  destruct (link_facility_contacts staff st st' nf fc Hstep) as (fs & _ & H).
  rewrite H, !decide_False by tauto. exact Hst.
Qed.








(** ** Facility groups in the household layer *)

Lemma slice_to_nat {A : Type} (l : list A) (m : nat) :
  slice_to l (Z.of_nat m) = take m l.
Proof.
  unfold slice_to, slice_bound.
  destruct (Z.ltb_spec (Z.of_nat m) 0) as [?|_]; [lia|].
  rewrite Nat2Z.id.
  destruct (Nat.le_gt_cases m (length l)) as [Hle|Hgt].
  - now rewrite Nat.min_l.
  - rewrite Nat.min_r by lia. rewrite !firstn_all2; auto; lia.
Qed.

Lemma slice_from_nat {A : Type} (l : list A) (m : nat) :
  slice_from l (Z.of_nat m) = drop m l.
Proof.
  unfold slice_from, slice_bound.
  destruct (Z.ltb_spec (Z.of_nat m) 0) as [?|_]; [lia|].
  rewrite Nat2Z.id.
  destruct (Nat.le_gt_cases m (length l)) as [Hle|Hgt].
  - now rewrite Nat.min_l.
  - rewrite Nat.min_r by lia. rewrite !skipn_all2; auto; lia.
Qed.

Lemma drop_length_take {A : Type} (l : list A) (m : nat) :
  drop (length (take m l)) l = drop m l.
Proof.
  rewrite length_take.
  destruct (Nat.le_gt_cases m (length l)) as [Hle|Hgt].
  - now rewrite Nat.min_l.
  - rewrite Nat.min_r by lia. rewrite !skipn_all2; auto; lia.
Qed.

(** The assembler run on [homes_by_uids] and its first [m] groups as the
    facilities: with no uid in two groups, a uid of those first groups ends
    with an empty household layer. *)
Lemma leading_groups_have_no_household_contacts (sex_tape : nat -> nat)
    (ages : list (uid * Z)) (groups schools workplaces staff : list (list uid))
    (m : nat) (popdict : gmap uid person) (u : uid) :
  make_contacts_with_facilities_from_microstructure_objects sex_tape ages
    groups schools workplaces (take m groups) staff = Ok popdict ->
  NoDup (concat groups) ->
  u ∈ concat (take m groups) ->
  contacts_of popdict u layer_H = ∅.
Proof.
  intros Hrun Hnd Hu.
  destruct (make_contacts_stages _ _ _ _ _ _ _ _ Hrun)
    as (pop0 & pop1 & pop2 & pop3 & Hempty & Hfac & HH & HS & HW).
  rewrite slice_from_nat, drop_length_take in HH.
  rewrite (link_groups_frame _ _ _ _ u layer_H HW) by (now left).
  rewrite (link_groups_frame _ _ _ _ u layer_H HS) by (now left).
  rewrite (link_groups_frame _ _ _ _ u layer_H HH).
  - rewrite (link_facilities_frame _ _ _ _ _ u layer_H Hfac) by discriminate.
    apply Hempty.
  - right. rewrite <- (take_drop m groups), concat_app in Hnd.
    apply NoDup_app in Hnd as (_ & Hdisj & _). now apply Hdisj.
Qed.

(** ** Unfolding the stages *)

Lemma generate_all_households_ok {R : Type} (sp : samplers R) (N : Z)
    (hh_sizes : list nat) (t : household_tables) (d : gmap Z Q) (r : R)
    (hh : all_households R) :
  generate_all_households sp N hh_sizes t d r = Ok hh ->
  exists alone r1 d1 larger r2,
    generate_living_alone sp hh_sizes d r = (alone, r1)
    /\ for_each (remove_living_alone N) alone d = Ok d1
    /\ generate_sizes sp (seq 2 6) hh_sizes t d1 r1 = Ok (larger, r2)
    /\ homes_dic hh = alone :: larger
    /\ shuffle sp (concat (alone :: larger)) r2 = (homes hh, rng_after hh)
    /\ distr_after hh = d1.
Proof.
  unfold generate_all_households. intros Hrun.
  destruct (generate_living_alone sp hh_sizes d r) as [alone r1] eqn:Ealone.
  bind_inv Hrun d1 Hd1. bind_inv Hrun lr Hlarger.
  destruct lr as [larger r2].
  destruct (shuffle sp (concat (alone :: larger)) r2) as [hs r3] eqn:Eshuffle.
  injection Hrun as <-. exists alone, r1, d1, larger, r2. simpl. auto 10.
Qed.

Lemma household_stage_ok {R : Type} (sp : samplers R) (co : collaborators R)
    (gen_pop_size : Z) (t16 : age_tables) (cm : list (list Q))
    (users : list (Z * Z)) (facilities : list (list Z)) (r : R)
    (hs : household_stage_result R) :
  household_stage sp co gen_pop_size t16 cm users facilities r = Ok hs ->
  exists expected_age_count r1,
    expected_age_tables gen_pop_size t16
      = Ok (hs_expected_age_distr hs, expected_age_count)
    /\ for_each subtract_users users expected_age_count
       = Ok (hs_ltcf_adjusted_age_count hs)
    /\ hs_ltcf_adjusted_age_distr hs
       = norm_dic co (hs_ltcf_adjusted_age_count hs)
    /\ hs_n hs
       = gen_pop_size - Zsum (map (fun f => Z.of_nat (length f)) facilities)
    /\ generate_household_sizes_from_fixed_pop_size sp (hs_n hs) r
       = (hs_hh_sizes_drawn hs, r1)
    /\ generate_all_households sp (hs_n hs) (hs_hh_sizes_drawn hs)
         {| age_brackets := census_age_brackets t16;
            age_by_brackets_dic := census_age_by_brackets_dic t16;
            contact_matrix_H := cm |}
         (hs_passed_age_distr hs) r1 = Ok (hs_households hs)
    /\ hs_passed_age_distr hs = hs_expected_age_distr hs
    /\ hs_all_homes hs = facilities ++ homes (hs_households hs)
    /\ assign_uids_by_homes co (hs_all_homes hs) (rng_after (hs_households hs))
       = (hs_homes_by_uids hs, hs_age_by_uid_dic hs, hs_rng_end hs)
    /\ hs_facilities_by_uids hs
       = take (length facilities) (hs_homes_by_uids hs).
Proof.
  unfold household_stage. intros Hrun.
  bind_inv Hrun tabs Htabs. destruct tabs as [ead eac].
  bind_inv Hrun adj Hadj.
  destruct (generate_household_sizes_from_fixed_pop_size sp _ r)
    as [hh_sizes r1] eqn:Esizes.
  bind_inv Hrun hh Hhh.
  destruct (assign_uids_by_homes co _ (rng_after hh)) as [[hbu abu] r2]
    eqn:Euids.
  injection Hrun as <-. exists eac, r1. simpl.
  rewrite slice_to_nat. auto 12.
Qed.

(** C10. In every completed run the households are shuffled on their own
    and the facility groups are put in front of them, so that the facility
    groups are the first [len(facilities)] groups handed to uid assignment
    and [facilities_by_uids] is that same prefix of [homes_by_uids]; when
    uid assignment gives every member a uid of its own, the assembler
    leaves the household layer of every facility resident empty. *)
Theorem facility_residents_have_no_household_contacts {R : Type}
    (sp : samplers R) (co : collaborators R) (gen_pop_size : Z)
    (t16 : age_tables) (cm : list (list Q)) (users : list (Z * Z))
    (facilities : list (list Z)) (r : R) (hs : household_stage_result R)
    (sex_tape : nat -> nat)
    (schools_by_uids workplaces_by_uids facilities_staff_uids : list (list uid))
    (popdict : gmap uid person) :
  household_stage sp co gen_pop_size t16 cm users facilities r = Ok hs ->
  disjoint_groups (hs_homes_by_uids hs) ->
  make_contacts_with_facilities_from_microstructure_objects sex_tape
    (hs_age_by_uid_dic hs) (hs_homes_by_uids hs) schools_by_uids
    workplaces_by_uids (hs_facilities_by_uids hs) facilities_staff_uids
    = Ok popdict ->
  (exists r2,
     shuffle sp (concat (homes_dic (hs_households hs))) r2
     = (homes (hs_households hs), rng_after (hs_households hs)))
  /\ hs_all_homes hs = facilities ++ homes (hs_households hs)
  /\ take (length facilities) (hs_all_homes hs) = facilities
  /\ drop (length facilities) (hs_all_homes hs) = homes (hs_households hs)
  /\ hs_facilities_by_uids hs
     = take (length facilities) (hs_homes_by_uids hs)
  /\ slice_from (hs_homes_by_uids hs)
       (Z.of_nat (length (hs_facilities_by_uids hs)))
     = drop (length facilities) (hs_homes_by_uids hs)
  /\ forall u, u ∈ concat (hs_facilities_by_uids hs) ->
               contacts_of popdict u layer_H = ∅.
Proof.
  intros Hstage Hnd Hrun.
  destruct (household_stage_ok _ _ _ _ _ _ _ _ _ Hstage)
    as (eac & r1 & _ & _ & _ & _ & _ & Hhh & _ & Hall & _ & Hfac).
  destruct (generate_all_households_ok _ _ _ _ _ _ _ Hhh)
    as (alone & r1' & d1 & larger & r2 & _ & _ & _ & Hdic & Hshuffle & _).
  split; [exists r2; now rewrite Hdic|]. split; [exact Hall|].
  split; [rewrite Hall; now rewrite take_app_length|].
  split; [rewrite Hall; now rewrite drop_app_length|].
  split; [exact Hfac|]. split.
  - rewrite slice_from_nat, Hfac. apply drop_length_take.
  - intros u Hu. rewrite Hfac in Hrun, Hu.
    eapply leading_groups_have_no_household_contacts; eauto.
Qed.

(** ** Head counts *)

Lemma headcount_cons {A : Type} (h : list A) (rows : list (list A)) :
  headcount (h :: rows) = (length h + headcount rows)%nat.
Proof. unfold headcount. simpl. apply List.length_app. Qed.

Lemma headcount_app {A : Type} (rows rows' : list (list A)) :
  headcount (rows ++ rows') = (headcount rows + headcount rows')%nat.
Proof. unfold headcount. rewrite concat_app. apply List.length_app. Qed.

Lemma generate_members_length {R : Type} (sp : samplers R)
    (t : household_tables) (b_prob : list Q) (d : gmap Z Q) :
  forall (todo : nat) (r : R) (members : list Z) (r' : R),
    generate_members sp t b_prob d todo r = Ok (members, r') ->
    length members = todo.
Proof.
  induction todo as [|todo IH]; intros r members r' Hrun; simpl in Hrun.
  - now injection Hrun as <- <-.
  - bind_inv Hrun ar Har. destruct ar as [ai r1].
    bind_inv Hrun mr Hmr. destruct mr as [rest r2].
    injection Hrun as <- <-. simpl. f_equal. eauto.
Qed.

Lemma generate_household_length {R : Type} (sp : samplers R)
    (t : household_tables) (size : nat) (d : gmap Z Q) (r : R)
    (home : list Z) (r' : R) :
  (1 <= size)%nat ->
  generate_household sp t size d r = Ok (home, r') -> length home = size.
Proof.
  intros Hsize. unfold generate_household.
  destruct (generate_household_head_age_by_size sp size d r) as [hha r1].
  intros Hrun. bind_inv Hrun b Hb. bind_inv Hrun b_prob Hprob.
  bind_inv Hrun mr Hmr. destruct mr as [members r2].
  injection Hrun as <- <-. simpl.
  rewrite (generate_members_length _ _ _ _ _ _ _ _ Hmr). lia.
Qed.

Lemma generate_households_headcount {R : Type} (sp : samplers R)
    (t : household_tables) (size : nat) (d : gmap Z Q) :
  (1 <= size)%nat ->
  forall (todo : nat) (r : R) (rows : list (list Z)) (r' : R),
    generate_households sp t size d todo r = Ok (rows, r') ->
    length rows = todo
    /\ List.Forall (fun home => length home = size) rows
    /\ headcount rows = (size * todo)%nat.
Proof.
  intros Hsize.
  induction todo as [|todo IH]; intros r rows r' Hrun; simpl in Hrun.
  - injection Hrun as <- <-. unfold headcount. simpl. repeat split; auto; lia.
  - bind_inv Hrun hr Hhome. destruct hr as [home r1].
    bind_inv Hrun rr Hrest. destruct rr as [rest r2].
    injection Hrun as <- <-.
    destruct (IH _ _ _ Hrest) as (Hlen & Hall & Hcount).
    pose proof (generate_household_length _ _ _ _ _ _ _ Hsize Hhome) as Hh.
    rewrite headcount_cons, Hcount, Hh. simpl.
    repeat split; [lia|now constructor|lia].
Qed.

Lemma generate_sizes_headcount {R : Type} (sp : samplers R)
    (hh_sizes : list nat) (t : household_tables) (d : gmap Z Q) :
  forall (sizes : list nat) (r : R) (larger : list (list (list Z))) (r' : R),
    List.Forall (fun s => (1 <= s)%nat) sizes ->
    generate_sizes sp sizes hh_sizes t d r = Ok (larger, r') ->
    headcount (concat larger)
    = list_sum (map (fun s => (s * nth (s - 1) hh_sizes 0)%nat) sizes).
Proof.
  induction sizes as [|s sizes IH]; intros r larger r' Hpos Hrun;
    simpl in Hrun.
  - now injection Hrun as <- <-.
  - inversion Hpos as [|? ? Hs Hpos']; subst.
    bind_inv Hrun hr Hs1. destruct hr as [rows r1].
    bind_inv Hrun rr Hrest. destruct rr as [rest r2].
    injection Hrun as <- <-.
    unfold generate_larger_households in Hs1. bind_inv Hs1 count Hcount.
    apply index_ok in Hcount.
    destruct (generate_households_headcount sp t s d Hs _ _ _ _ Hs1)
      as (_ & _ & Hrows).
    cbn [concat map list_sum]. rewrite headcount_app, Hrows.
    rewrite (IH _ _ _ Hpos' Hrest).
    now rewrite (nth_error_nth _ _ _ Hcount).
Qed.

Lemma headcount_singletons {A : Type} (rows : list (list A)) :
  List.Forall (fun h => length h = 1%nat) rows -> headcount rows = length rows.
Proof.
  induction 1 as [|h rows Hh _ IH]; [reflexivity|].
  rewrite headcount_cons, IH, Hh. reflexivity.
Qed.

Lemma headcount_Permutation {A : Type} (rows rows' : list (list A)) :
  rows ≡ₚ rows' -> headcount rows = headcount rows'.
Proof.
  induction 1 as [|h l l' _ IH|h h' l|l l' l'' _ IH1 _ IH2].
  - reflexivity.
  - now rewrite !headcount_cons, IH.
  - rewrite !headcount_cons. lia.
  - congruence.
Qed.

Lemma Zsum_lengths {A : Type} (groups : list (list A)) :
  Zsum (map (fun f => Z.of_nat (length f)) groups)
  = Z.of_nat (headcount groups).
Proof.
  induction groups as [|g groups IH]; [reflexivity|].
  rewrite headcount_cons. simpl. rewrite IH. lia.
Qed.

(** C5. When the household-size generator returns seven counts that account
    for exactly the people it was asked for, the living-alone generator
    returns that many one-person rows, and the shuffle only reorders, the
    household stage is run for [gen_pop_size] minus the facility residents
    and the households and the facilities together hold exactly
    [gen_pop_size] people. *)
Theorem households_and_facilities_fill_population {R : Type}
    (sp : samplers R) (co : collaborators R) (gen_pop_size : Z)
    (t16 : age_tables) (cm : list (list Q)) (users : list (Z * Z))
    (facilities : list (list Z)) (r : R) (hs : household_stage_result R) :
  household_stage sp co gen_pop_size t16 cm users facilities r = Ok hs ->
  length (hs_hh_sizes_drawn hs) = 7%nat ->
  Z.of_nat (people_in (hs_hh_sizes_drawn hs)) = hs_n hs ->
  (forall d r',
     length (generate_living_alone sp (hs_hh_sizes_drawn hs) d r').1
     = nth 0 (hs_hh_sizes_drawn hs) 0%nat
     /\ List.Forall (fun h => length h = 1%nat)
          (generate_living_alone sp (hs_hh_sizes_drawn hs) d r').1) ->
  (forall l r', (shuffle sp l r').1 ≡ₚ l) ->
  hs_n hs = gen_pop_size - Z.of_nat (headcount facilities)
  /\ Z.of_nat (headcount (homes (hs_households hs))) = hs_n hs
  /\ Z.of_nat (headcount (homes (hs_households hs)) + headcount facilities)
     = gen_pop_size
  /\ Z.of_nat (headcount (hs_all_homes hs)) = gen_pop_size.
Proof.
  intros Hstage Hlen Hpeople Halone Hshuffle.
  destruct (household_stage_ok _ _ _ _ _ _ _ _ _ Hstage)
    as (eac & r1 & _ & _ & _ & Hn & _ & Hhh & _ & Hall & _ & _).
  destruct (generate_all_households_ok _ _ _ _ _ _ _ Hhh)
    as (alone & r1' & d1 & larger & r2 & Halone' & _ & Hlarger & _ & Hsh & _).
  rewrite Zsum_lengths in Hn.
  assert (Hhomes : headcount (homes (hs_households hs))
                   = people_in (hs_hh_sizes_drawn hs)).
  { specialize (Hshuffle (concat (alone :: larger)) r2).
    rewrite Hsh in Hshuffle. simpl in Hshuffle.
    rewrite (headcount_Permutation _ _ Hshuffle), headcount_app.
    specialize (Halone (hs_passed_age_distr hs) r1).
    rewrite Halone' in Halone. simpl in Halone. destruct Halone as [Hc1 Hones].
    rewrite (headcount_singletons _ Hones), Hc1.
    assert (Hpos : List.Forall (fun s => (1 <= s)%nat) (seq 2 6))
      by (repeat constructor; lia).
    rewrite (generate_sizes_headcount sp _ _ _ _ _ _ _ Hpos Hlarger).
    destruct (hs_hh_sizes_drawn hs) as [|c1 [|c2 [|c3 [|c4 [|c5 [|c6 [|c7 [|]]]]]]]];
      try discriminate.
    unfold people_in. simpl. lia. }
  split; [exact Hn|]. split; [lia|]. split; [lia|].
  rewrite Hall, headcount_app. lia.
Qed.

(** ** Depleting the age distribution *)

Lemma total_mass_delete (d : gmap Z Q) (a : Z) (m : Q) :
  d !! a = Some m -> (total_mass d == m + total_mass (delete a d))%Q.
Proof.
  intros Hm. unfold total_mass.
  apply (map_fold_delete Qeq (fun _ q acc => (q + acc)%Q)); [| |exact Hm].
  - intros j z x y Hxy. now rewrite Hxy.
  - intros j1 j2 z1 z2 y _ _ _. ring.
Qed.

Lemma total_mass_insert (d : gmap Z Q) (a : Z) (m : Q) :
  d !! a = None -> (total_mass (<[a := m]> d) == m + total_mass d)%Q.
Proof.
  intros Hm. unfold total_mass.
  apply (map_fold_insert Qeq (fun _ q acc => (q + acc)%Q)); [| |exact Hm].
  - intros j z x y Hxy. now rewrite Hxy.
  - intros j1 j2 z1 z2 y _ _ _. ring.
Qed.

Lemma total_mass_update (d : gmap Z Q) (a : Z) (m m' : Q) :
  d !! a = Some m ->
  (total_mass (<[a := m']> d) == total_mass d - m + m')%Q.
Proof.
  intros Hm. rewrite <- (insert_delete_eq d a m').
  rewrite total_mass_insert by apply lookup_delete_eq.
  rewrite (total_mass_delete d a m Hm). ring.
Qed.

Lemma remove_living_alone_mass (N : Z) (d d' : gmap Z Q) (h : list Z) :
  remove_living_alone N d h = Ok d' ->
  N <> 0 /\ (total_mass d' == total_mass d - 1 / inject_Z N)%Q.
Proof.
  unfold remove_living_alone. intros Hrun. bind_inv Hrun a Ha.
  destruct (Z.eqb_spec N 0) as [|HN]; [discriminate|].
  bind_inv Hrun m Hm. injection Hrun as <-. apply getitem_ok in Hm.
  split; [assumption|]. rewrite (total_mass_update d a m _ Hm). ring.
Qed.

Lemma remove_all_living_alone_mass (N : Z) :
  forall (alone : list (list Z)) (d d' : gmap Z Q),
    for_each (remove_living_alone N) alone d = Ok d' ->
    (total_mass d'
     == total_mass d - inject_Z (Z.of_nat (length alone)) * (1 / inject_Z N))%Q.
Proof.
  induction alone as [|h alone IH]; intros d d' Hrun; simpl in Hrun.
  - injection Hrun as <-. simpl. ring.
  - bind_inv Hrun d1 Hd1.
    destruct (remove_living_alone_mass N d d1 h Hd1) as [_ H1].
    rewrite (IH d1 d' Hrun), H1.
    cbn [length]. rewrite Nat2Z.inj_succ, <- Z.add_1_r, inject_Z_plus. ring.
Qed.

(** C8, as the code has it. Once all one-person households are generated,
    [1/N] is taken off the mass of each of their ages, so the distribution
    then holds its first mass less (count of one-person households)/N,
    that is 1 - count/N when it started at 1. The households of sizes 2 to
    7 are then sampled from this distribution, and the stage takes nothing
    more off it: it is the distribution the stage leaves behind. *)
Theorem living_alone_depletes_age_distribution {R : Type} (sp : samplers R)
    (N : Z) (hh_sizes : list nat) (t : household_tables)
    (single_year_age_distr : gmap Z Q) (r : R) (hh : all_households R) :
  generate_all_households sp N hh_sizes t single_year_age_distr r = Ok hh ->
  exists alone larger r1 r2,
    homes_dic hh = alone :: larger
    /\ generate_living_alone sp hh_sizes single_year_age_distr r = (alone, r1)
    /\ for_each (remove_living_alone N) alone single_year_age_distr
       = Ok (distr_after hh)
    /\ generate_sizes sp (seq 2 6) hh_sizes t (distr_after hh) r1
       = Ok (larger, r2)
    /\ (total_mass (distr_after hh)
        == total_mass single_year_age_distr
           - inject_Z (Z.of_nat (length alone)) * (1 / inject_Z N))%Q
    /\ ((total_mass single_year_age_distr == 1)%Q ->
        (total_mass (distr_after hh)
         == 1 - inject_Z (Z.of_nat (length alone)) / inject_Z N)%Q).
Proof.
  intros Hrun.
  destruct (generate_all_households_ok _ _ _ _ _ _ _ Hrun)
    as (alone & r1 & d1 & larger & r2 & Halone & Hd1 & Hlarger & Hdic & _
        & Hafter).
  subst d1. exists alone, larger, r1, r2.
  pose proof (remove_all_living_alone_mass N alone _ _ Hd1) as Hmass.
  repeat split; try assumption.
  intros Hone. rewrite Hmass, Hone. unfold Qdiv. ring.
Qed.

(** C8, as stated, fails: with N = 3, one household of one person and one
    of two, all three people are placed, yet the distribution the stage
    leaves behind has lost only the 1/3 of the person living alone. *)
Lemma larger_households_do_not_deplete :
  exists hh,
    generate_all_households fixed_samplers 3 [1; 1; 0; 0; 0; 0; 0]%nat
      small_tables {[ 30 := 1%Q ]} tt = Ok hh
    /\ homes hh = [[30]; [30; 31]]
    /\ headcount (homes hh) = 3%nat
    /\ (total_mass (distr_after hh) == 2 # 3)%Q
    /\ ~ (total_mass (distr_after hh) == 1 - 3 / 3)%Q.
Proof.
  eexists. split; [vm_compute; reflexivity|].
  split; [reflexivity|]. split; [reflexivity|].
  split; [vm_compute; reflexivity|].
  vm_compute. discriminate.
Qed.

(** ** The age resampler *)

Lemma resample_if_never {R : Type} (sp : samplers R) (d : gmap Z Q)
    (at_age : Z) (ar : Z * R) :
  (forall r', (binomial sp 0 r').1 = false) ->
  (resample_if sp d at_age 0 ar).1 = ar.1.
Proof.
  intros Hnever. unfold resample_if. destruct ar as [a r].
  destruct (a =? at_age); [|reflexivity].
  specialize (Hnever r). destruct (binomial sp 0 r) as [coin r1].
  simpl in Hnever. now subst coin.
Qed.

Lemma resample_if_support {R : Type} (sp : samplers R) (d : gmap Z Q)
    (at_age : Z) (p : Q) (ar : Z * R) :
  (forall a' r', in_support d (resample_age sp d a' r').1) ->
  in_support d ar.1 -> in_support d (resample_if sp d at_age p ar).1.
Proof.
  intros Hbase Har. unfold resample_if. destruct ar as [a r].
  destruct (a =? at_age); [|assumption].
  destruct (binomial sp p r) as [[|] r1]; [apply Hbase|assumption].
Qed.

(** C7, as the code has it. The resampler first applies the base procedure
    to the candidate age, whatever it is; then, looking in turn for the
    ages 7, 6 and 5 in what it holds, it reapplies the base procedure with
    probability 0.25, 0.25 and 0.2. The clauses for the ages 0, 1, 2 and 4
    change nothing when a coin of probability 0 never comes up, and the
    age returned is in the support of the distribution when the base
    procedure only answers such ages. *)
Theorem resample_age_uk_cascade {R : Type} (sp : samplers R)
    (exp_age_distr : gmap Z Q) (a : Z) (r : R) :
  (forall r', (binomial sp 0 r').1 = false) ->
  (forall a' r', in_support exp_age_distr
                   (resample_age sp exp_age_distr a' r').1) ->
  in_support exp_age_distr (resample_age_uk sp exp_age_distr a r).1
  /\ (resample_age_uk sp exp_age_distr a r).1
     = (resample_if sp exp_age_distr 5 (2 # 10)
          (resample_if sp exp_age_distr 6 (25 # 100)
             (resample_if sp exp_age_distr 7 (25 # 100)
                (resample_age sp exp_age_distr a r)))).1.
Proof.
  intros Hnever Hbase. unfold resample_age_uk. split.
  - repeat apply resample_if_support; auto.
  - now rewrite !resample_if_never.
Qed.

(** C7, as stated, fails: the candidate age 30 is none of the listed ages,
    so the resampler as specified returns it, while the code has already
    passed it through the base procedure, which here answers 31. *)
Lemma resample_age_uk_always_resamples :
  resample_age_uk fixed_samplers {[ 31 := 1%Q ]} 30 tt = (31, tt)
  /\ resample_age_uk_as_specified fixed_samplers {[ 31 := 1%Q ]} 30 tt
     = (30, tt).
Proof. split; reflexivity. Qed.

(** ** Expected facility users by age *)

Lemma traverse_ok {A B : Type} (f : A -> result B) :
  forall (l : list A) (ys : list B),
    traverse f l = Ok ys -> List.Forall2 (fun x y => f x = Ok y) l ys.
Proof.
  induction l as [|x l IH]; intros ys Hrun; simpl in Hrun.
  - injection Hrun as <-. constructor.
  - bind_inv Hrun y Hy. bind_inv Hrun ys' Hys. injection Hrun as <-.
    constructor; auto.
Qed.

Lemma range_spec (lo hi a : Z) : In a (range lo hi) <-> lo <= a < hi.
Proof.
  unfold range. rewrite in_map_iff. split.
  - intros (i & <- & Hi). apply in_seq in Hi. lia.
  - intros Ha. exists (Z.to_nat (a - lo)). split; [lia|]. apply in_seq. lia.
Qed.


(** ** The hand-off from the facilities to the households *)

(** C1 on a fixed run: 101 people, one census bracket, one facility holding
    the one expected 60-year-old. The adjusted count and the adjusted
    distribution give age 60 nothing, but the distribution handed to
    household generation is the unadjusted one, age 60 keeps its mass
    1/101 in it, and a household of a 60-year-old is generated. *)
Theorem households_drawn_from_unadjusted_distribution :
  exists hs,
    household_stage fixed_samplers fixed_collaborators 101 one_bracket_tables
      [[1%Q]] [(60, 1)] [[60]] tt = Ok hs
    /\ hs_ltcf_adjusted_age_count hs !! 60 = Some 0
    /\ (mass_at (hs_ltcf_adjusted_age_distr hs) 60 == 0)%Q
    /\ hs_passed_age_distr hs = hs_expected_age_distr hs
    /\ (mass_at (hs_passed_age_distr hs) 60 == 1 # 101)%Q
    /\ In [60] (homes (hs_households hs)).
Proof.
  destruct (ok_run
              (household_stage fixed_samplers fixed_collaborators 101
                 one_bracket_tables [[1%Q]] [(60, 1)] [[60]] tt)
              (fun hs =>
                 bool_decide (hs_ltcf_adjusted_age_count hs !! 60 = Some 0)
                 && Qeq_bool (mass_at (hs_ltcf_adjusted_age_distr hs) 60) 0
                 && Qeq_bool (mass_at (hs_passed_age_distr hs) 60) (1 # 101)
                 && bool_decide ([60] ∈ homes (hs_households hs))))
    as (hs & E & Hb); [vm_compute; reflexivity|].
  apply andb_prop in Hb as [Hb H4]. apply andb_prop in Hb as [Hb H3].
  apply andb_prop in Hb as [H1 H2].
  apply bool_decide_eq_true in H1, H4. apply Qeq_bool_iff in H2, H3.
  apply list_elem_of_In in H4.
  exists hs. repeat split; try assumption.
  destruct (household_stage_ok _ _ _ _ _ _ _ _ _ E)
    as (? & ? & _ & _ & _ & _ & _ & _ & Hpassed & _). exact Hpassed.
Qed.

(** In every run the distribution handed to household generation is
    [expected_age_distr], whatever the adjusted one is. *)
Lemma household_stage_passes_expected {R : Type} (sp : samplers R)
    (co : collaborators R) (gen_pop_size : Z) (t16 : age_tables)
    (cm : list (list Q)) (users : list (Z * Z)) (facilities : list (list Z))
    (r : R) (hs : household_stage_result R) :
  household_stage sp co gen_pop_size t16 cm users facilities r = Ok hs ->
  hs_passed_age_distr hs = hs_expected_age_distr hs.
Proof.
  intros Hstage.
  destruct (household_stage_ok _ _ _ _ _ _ _ _ _ Hstage)
    as (? & ? & _ & _ & _ & _ & _ & _ & Hpassed & _). exact Hpassed.
Qed.

(** ** The properties on fixed runs *)



Ltac by_computation :=
  match goal with
  | |- ?P => apply (bool_decide_unpack P); vm_compute; exact I
  end.




Lemma households_and_facilities_fill_population_witness :
  exists hs,
    household_stage fixed_samplers fixed_collaborators 101 one_bracket_tables
      [[1%Q]] [(60, 1)] [[60]] tt = Ok hs
    /\ hs_n hs = 100
    /\ Z.of_nat (headcount (homes (hs_households hs)) + headcount [[60]])
       = 101
    /\ Z.of_nat (headcount (hs_all_homes hs)) = 101.
Proof.
  destruct (ok_run
              (household_stage fixed_samplers fixed_collaborators 101
                 one_bracket_tables [[1%Q]] [(60, 1)] [[60]] tt)
              (fun hs =>
                 bool_decide (hs_n hs = 100)
                 && bool_decide (hs_hh_sizes_drawn hs
                                 = [100; 0; 0; 0; 0; 0; 0]%nat)))
    as (hs & E & Hb); [vm_compute; reflexivity|].
  apply andb_prop in Hb as [Hn Hsizes].
  apply bool_decide_eq_true in Hn, Hsizes.
  exists hs. split; [exact E|]. split; [exact Hn|].
  destruct (households_and_facilities_fill_population _ _ _ _ _ _ _ _ _ E)
    as (_ & _ & Hsum & Hall).
  - now rewrite Hsizes.
  - now rewrite Hsizes, Hn.
  - intros d r'. rewrite Hsizes. unfold fixed_samplers.
    cbn [generate_living_alone fst nth].
    split; [apply repeat_length|].
    apply List.Forall_forall. intros h Hh. apply repeat_spec in Hh.
    now subst h.
  - intros l r'. reflexivity.
  - split; assumption.
Defined.


Lemma resample_age_uk_cascade_witness :
  in_support {[ 31 := 1%Q ]}
    (resample_age_uk fixed_samplers {[ 31 := 1%Q ]} 30 tt).1
  /\ (resample_age_uk fixed_samplers {[ 31 := 1%Q ]} 30 tt).1 = 31.
Proof.
  destruct (resample_age_uk_cascade fixed_samplers {[ 31 := 1%Q ]} 30 tt)
    as (Hsupport & Hcascade).
  - intros r'. reflexivity.
  - intros a' r'. exists 1%Q. split; reflexivity.
  - split; [exact Hsupport|reflexivity].
Defined.

Lemma living_alone_depletes_age_distribution_witness :
  exists hh,
    generate_all_households fixed_samplers 3 [1; 1; 0; 0; 0; 0; 0]%nat
      small_tables {[ 30 := 1%Q ]} tt = Ok hh
    /\ exists alone larger,
         homes_dic hh = alone :: larger
         /\ (total_mass (distr_after hh)
             == 1 - inject_Z (Z.of_nat (length alone)) / 3)%Q.
Proof.
  destruct (ok_run
              (generate_all_households fixed_samplers 3
                 [1; 1; 0; 0; 0; 0; 0]%nat small_tables {[ 30 := 1%Q ]} tt)
              (fun _ => true))
    as (hh & E & _); [vm_compute; reflexivity|].
  exists hh. split; [exact E|].
  destruct (living_alone_depletes_age_distribution _ _ _ _ _ _ _ E)
    as (alone & larger & r1 & r2 & Hdic & _ & _ & _ & _ & Hone).
  exists alone, larger. split; [exact Hdic|].
  apply Hone. vm_compute. reflexivity.
Defined.

Lemma facility_residents_have_no_household_contacts_witness :
  exists hs popdict,
    household_stage fixed_samplers fixed_collaborators 101 one_bracket_tables
      [[1%Q]] [(60, 1)] [[60]] tt = Ok hs
    /\ make_contacts_with_facilities_from_microstructure_objects (fun _ => O)
         (hs_age_by_uid_dic hs) (hs_homes_by_uids hs) [] []
         (hs_facilities_by_uids hs) [["BA"]] = Ok popdict
    /\ hs_facilities_by_uids hs = [["AA"]]
    /\ contacts_of popdict "AA" layer_H = ∅.
Proof.
  destruct (ok_run
              (household_stage fixed_samplers fixed_collaborators 101
                 one_bracket_tables [[1%Q]] [(60, 1)] [[60]] tt)
              (fun hs =>
                 bool_decide (hs_facilities_by_uids hs = [["AA"]])
                 && bool_decide (NoDup (concat (hs_homes_by_uids hs)))
                 && match
                      make_contacts_with_facilities_from_microstructure_objects
                        (fun _ => O) (hs_age_by_uid_dic hs)
                        (hs_homes_by_uids hs) [] []
                        (hs_facilities_by_uids hs) [["BA"]]
                    with
                    | Ok _ => true
                    | _ => false
                    end))
    as (hs & E & Hb); [vm_compute; reflexivity|].
  apply andb_prop in Hb as [Hb Hrun]. apply andb_prop in Hb as [Hfac Hnd].
  apply bool_decide_eq_true in Hfac, Hnd.
  destruct (make_contacts_with_facilities_from_microstructure_objects
              (fun _ => O) (hs_age_by_uid_dic hs) (hs_homes_by_uids hs) [] []
              (hs_facilities_by_uids hs) [["BA"]]) as [popdict| |] eqn:E';
    [|discriminate..].
  exists hs, popdict. split; [exact E|]. split; [exact E'|].
  split; [exact Hfac|].
  destruct (facility_residents_have_no_household_contacts _ _ _ _ _ _ _ _ _
              _ _ _ _ _ E Hnd E') as (_ & _ & _ & _ & _ & _ & Hempty).
  apply Hempty. rewrite Hfac. by_computation.
Defined.

(** * Further properties *)

(** ** Facility formation, whatever the sizes drawn *)

Lemma slice_to_from {A : Type} (l : list A) (k : Z) :
  slice_to l k ++ slice_from l k = l.
Proof. unfold slice_to, slice_from. apply firstn_skipn. Qed.

(** X1. Whatever sizes are drawn (zero and negative ones included), a run
    of the placement loop that ends has put every pooled resident in
    exactly one facility, in the order of the pool: the facilities already
    formed, then the pool, read off the facilities returned. *)
Theorem place_residents_conserves_residents (KC_ltcf_sizes : list Q)
    (tape : nat -> nat) :
  forall (fuel i : nat) (all_residents : list Z)
         (formed facilities : list (list Z)),
    place_residents fuel KC_ltcf_sizes tape i all_residents formed
      = Ok facilities ->
    concat facilities = concat formed ++ all_residents.
Proof.
  induction fuel as [|fuel IH]; intros i pool formed facilities Hrun.
  - destruct pool; [|discriminate]. simpl in Hrun. injection Hrun as <-.
    now rewrite app_nil_r.
  - destruct pool as [|x xs].
    { simpl in Hrun. injection Hrun as <-. now rewrite app_nil_r. }
    cbn [place_residents] in Hrun. bind_inv Hrun sz Hsz.
    apply IH in Hrun. rewrite Hrun, concat_app. simpl.
    rewrite app_nil_r, <- app_assoc. f_equal. apply slice_to_from.
Qed.

Lemma place_residents_conserves_residents_witness :
  exists facilities,
    place_residents 5 [2 # 1; -1 # 1]%Q (fun i => i) 0 [60; 61; 62; 63] []
      = Ok facilities
    /\ concat facilities = [60; 61; 62; 63].
Proof.
  destruct (ok_run
              (place_residents 5 [2 # 1; -1 # 1]%Q (fun i => i) 0
                 [60; 61; 62; 63] [])
              (fun _ => true)) as (facilities & E & _);
    [vm_compute; reflexivity|].
  exists facilities. split; [exact E|].
  exact (place_residents_conserves_residents _ _ _ _ _ _ _ E).
Defined.

Lemma int_of_fraction (q : Q) : (0 <= q)%Q -> (q < 1)%Q -> int_of q = 0.
Proof.
  intros H0 H1. unfold int_of.
  rewrite (proj2 (Qle_bool_iff 0 q) H0).
  apply Z.le_antisymm.
  - assert (H : (inject_Z (Qfloor q) < inject_Z 1)%Q)
      by (eapply Qle_lt_trans; [apply Qfloor_le|exact H1]).
    rewrite <- Zlt_Qlt in H. lia.
  - change 0 with (Qfloor 0). now apply Qfloor_resp_le.
Qed.

(** X2. When every size of the sample truncates to zero residents, the
    placement loop never ends on a non-empty pool: every turn forms an
    empty facility and leaves the pool as it was, so no amount of fuel
    gives a result. *)
Theorem place_residents_spins_on_zero_sizes (KC_ltcf_sizes : list Q)
    (tape : nat -> nat) :
  KC_ltcf_sizes <> [] ->
  List.Forall (fun q => (0 <= q)%Q /\ (q < 1)%Q) KC_ltcf_sizes ->
  forall (fuel i : nat) (x : Z) (xs : list Z) (facilities : list (list Z)),
    place_residents fuel KC_ltcf_sizes tape i (x :: xs) facilities = Diverge.
Proof.
  intros Hne Hall. induction fuel as [|fuel IH];
    intros i x xs facilities; [reflexivity|].
  cbn [place_residents].
  destruct (choice_elem KC_ltcf_sizes (tape i) Hne) as (q & Hq & Hin).
  unfold drawn_size. rewrite Hq. run_binds.
  rewrite List.Forall_forall in Hall. destruct (Hall q Hin) as [H0 H1].
  rewrite (int_of_fraction q H0 H1).
  change (slice_from (x :: xs) 0) with (x :: xs).
  apply IH.
Qed.

Lemma place_residents_spins_on_zero_sizes_witness :
  place_residents 50 [1 # 2]%Q (fun _ => O) 0 [60; 61] [] = Diverge.
Proof.
  apply (place_residents_spins_on_zero_sizes [1 # 2]%Q (fun _ => O)).
  - discriminate.
  - constructor; [|constructor]. split; [discriminate|reflexivity].
Defined.

(** ** From the calibrated counts to the facilities *)

Lemma expected_users_by_age_keys (gen_pop_size : Z) (t18 : age_tables)
    (perc : gmap string Q) (table : list (Z * Z)) :
  expected_users_by_age gen_pop_size t18 perc = Ok table ->
  map fst table = range 60 101.
Proof.
  unfold expected_users_by_age. intros Hrun. apply traverse_ok in Hrun.
  induction Hrun as [|a row l rows Hrow _ IH]; [reflexivity|].
  bind_inv Hrow users Husers. injection Hrow as <-. simpl. now rewrite IH.
Qed.

Lemma range_NoDup (lo hi : Z) : List.NoDup (range lo hi).
Proof.
  unfold range. apply Finite.Injective_map_NoDup.
  - intros x y. lia.
  - apply List.seq_NoDup.
Qed.

Lemma pool_of_In (table : list (Z * Z)) (a : Z) :
  In a (pool_of table) -> In a (map fst table).
Proof.
  unfold pool_of. rewrite in_flat_map. intros ([a' c] & Hin & Ha).
  apply repeat_spec in Ha. subst a'. apply in_map_iff. now exists (a, c).
Qed.

Lemma pool_of_count (table : list (Z * Z)) (a c : Z) :
  List.NoDup (map fst table) -> In (a, c) table ->
  count_occ Z.eq_dec (pool_of table) a = Z.to_nat c.
Proof.
  unfold pool_of. induction table as [|[a' c'] table IH]; intros Hnd Hin;
    [destruct Hin|].
  simpl in Hnd. inversion Hnd as [|? ? Hfresh Hnd']; subst.
  cbn [flat_map]. rewrite count_occ_app. destruct Hin as [Heq|Hin].
  - injection Heq as -> ->. rewrite count_occ_repeat_eq by reflexivity.
    assert (H0 : count_occ Z.eq_dec
                   (flat_map (fun '(a0, c0) => repeat a0 (Z.to_nat c0)) table)
                   a = O); [|lia].
    apply count_occ_not_In. intros Hin. apply Hfresh.
    now apply pool_of_In.
  - rewrite count_occ_repeat_neq, (IH Hnd' Hin); [reflexivity|].
    intros ->. apply Hfresh. apply in_map_iff. now exists (a', c).
Qed.

(** X3. The residents placed in facilities are the calibrated ones: when
    the calibration returns its table, the pool built from it is shuffled
    (reordered) and the placement loop ends, every facility resident is
    aged 60 to 100, every age has exactly its calibrated count of residents
    (none for a count that is not positive), and no pooled resident is left
    out. *)
Theorem facility_residents_follow_calibration (gen_pop_size : Z)
    (t18 : age_tables) (est_ltcf_user_by_age_brackets_perc : gmap string Q)
    (table : list (Z * Z)) (all_residents : list Z) (KC_ltcf_sizes : list Q)
    (tape : nat -> nat) (fuel : nat) (facilities : list (list Z)) :
  expected_users_by_age gen_pop_size t18 est_ltcf_user_by_age_brackets_perc
    = Ok table ->
  all_residents ≡ₚ pool_of table ->
  place_residents fuel KC_ltcf_sizes tape 0 all_residents [] = Ok facilities ->
  (forall a, In a (concat facilities) -> 60 <= a <= 100)
  /\ (forall a users, In (a, users) table ->
        count_occ Z.eq_dec (concat facilities) a = Z.to_nat users)
  /\ headcount facilities = length (pool_of table).
Proof.
  intros Htable Hshuffle Hplace.
  pose proof (expected_users_by_age_keys _ _ _ _ Htable) as Hkeys.
  pose proof (place_residents_conserves_residents _ _ _ _ _ _ _ Hplace) as Hcat.
  simpl in Hcat. split; [|split].
  - intros a Ha. rewrite Hcat in Ha.
    apply (Permutation_in _ Hshuffle), pool_of_In in Ha.
    rewrite Hkeys in Ha. apply range_spec in Ha. lia.
  - intros a users Hin. rewrite Hcat.
    rewrite (proj1 (Permutation_count_occ Z.eq_dec _ _) Hshuffle).
    apply pool_of_count; [|assumption]. rewrite Hkeys. apply range_NoDup.
  - unfold headcount. rewrite Hcat. now apply Permutation_length.
Qed.

Lemma facility_residents_follow_calibration_witness :
  exists table facilities,
    expected_users_by_age 1010 one_bracket_tables small_usage_perc = Ok table
    /\ place_residents 60 [20 # 1]%Q (fun _ => O) 0 (pool_of table) []
       = Ok facilities
    /\ (forall a, In a (concat facilities) -> 60 <= a <= 100)
    /\ count_occ Z.eq_dec (concat facilities) 85 = 2%nat.
Proof.
  destruct (ok_run
              (expected_users_by_age 1010 one_bracket_tables small_usage_perc)
              (fun table =>
                 bool_decide ((85, 2) ∈ table)
                 && match place_residents 60 [20 # 1]%Q (fun _ => O) 0
                            (pool_of table) [] with
                    | Ok _ => true
                    | _ => false
                    end))
    as (table & E & Hb); [vm_compute; reflexivity|].
  apply andb_prop in Hb as [H85 Hrun].
  apply bool_decide_eq_true, list_elem_of_In in H85.
  destruct (place_residents 60 [20 # 1]%Q (fun _ => O) 0 (pool_of table) [])
    as [facilities| |] eqn:E'; [|discriminate..].
  exists table, facilities. split; [exact E|]. split; [exact E'|].
  destruct (facility_residents_follow_calibration _ _ _ _ _ _ _ _ _ E
              (reflexivity _) E') as (Hages & Hcount & _).
  split; [exact Hages|]. exact (Hcount 85 2 H85).
Defined.

(** ** Usage percentages by age bracket *)

Lemma for_each_update (upd : string -> Q -> Q) :
  forall (keys : list string) (est : gmap string Q),
    NoDup keys ->
    (forall b, b ∈ keys -> is_Some (est !! b)) ->
    exists est',
      for_each (fun est b => old ← getitem (est !! b);
                             Ok (<[b := upd b old]> est)) keys est = Ok est'
      /\ forall k, est' !! k
                   = if decide (k ∈ keys) then upd k <$> est !! k
                     else est !! k.
Proof.
  induction keys as [|b keys IH]; intros est Hnd Hkeys.
  - exists est. split; [reflexivity|]. intros k.
    rewrite decide_False; [reflexivity|]. apply not_elem_of_nil.
  - apply NoDup_cons in Hnd as [Hb Hnd].
    destruct (Hkeys b) as [v Hv]; [now left|].
    destruct (IH (<[b := upd b v]> est) Hnd) as (est' & Hrun & Hlook).
    { intros k Hk. destruct (decide (k = b)) as [->|Hne].
      - rewrite lookup_insert_eq. eauto.
      - rewrite lookup_insert_ne by congruence. apply Hkeys. now right. }
    exists est'. split.
    { cbn [for_each]. rewrite Hv. run_binds. exact Hrun. }
    intros k. rewrite Hlook. destruct (decide (k = b)) as [->|Hne].
    + rewrite decide_False by assumption. rewrite lookup_insert_eq.
      rewrite decide_True by (now left). now rewrite Hv.
    + rewrite lookup_insert_ne by congruence.
      destruct (decide (k ∈ keys)) as [Hk|Hk].
      * rewrite decide_True by (now right). reflexivity.
      * rewrite decide_False; [reflexivity|].
        intros Hk'. apply elem_of_cons in Hk' as [?|?]; contradiction.
Qed.

Lemma survey_brackets_NoDup : NoDup survey_brackets.
Proof. by_computation. Qed.

(** The value [est_seattle_users_2018[b]] ends with, from the value [v] it
    starts with. *)
Lemma est_seattle_users_from (pop : Q) :
  forall (fks : list facility_users) (est : gmap string Q),
    (forall b, b ∈ survey_brackets -> is_Some (est !! b)) ->
    exists est',
      for_each (fun est fk => for_each (add_users pop fk) survey_brackets est)
        fks est = Ok est'
      /\ forall b, b ∈ survey_brackets ->
           est' !! b
           = (fun v =>
                fold_left
                  (fun acc fk =>
                     (acc + bracket_share b fk * inject_Z (users_total fk)
                            * pop / state_pop_2018)%Q) fks v) <$> est !! b.
Proof.
  induction fks as [|fk fks IH]; intros est Hkeys.
  - exists est. split; [reflexivity|]. intros b Hb.
    destruct (Hkeys b Hb) as [v Hv]. now rewrite Hv.
  - destruct (for_each_update
                (fun b old =>
                   (old + bracket_share b fk * inject_Z (users_total fk)
                          * pop / state_pop_2018)%Q)
                survey_brackets est survey_brackets_NoDup Hkeys)
      as (est1 & Hrun1 & Hlook1).
    destruct (IH est1) as (est' & Hrun & Hlook).
    { intros b Hb. rewrite Hlook1, decide_True by assumption.
      destruct (Hkeys b Hb) as [v Hv]. rewrite Hv. simpl. eauto. }
    exists est'. split.
    { assert (Hrun1' : for_each (add_users pop fk) survey_brackets est
                       = Ok est1) by exact Hrun1.
      cbn [for_each]. rewrite Hrun1'. run_binds. exact Hrun. }
    intros b Hb. rewrite (Hlook b Hb), Hlook1, decide_True by assumption.
    destruct (Hkeys b Hb) as [v Hv]. now rewrite Hv.
Qed.

Lemma fold_users_scaled (pop : Q) (b : string) :
  forall (fks : list facility_users) (v : Q),
    (fold_left
       (fun acc fk =>
          acc + bracket_share b fk * inject_Z (users_total fk)
                * pop / state_pop_2018) fks v
     == v + pop * users_per_state_resident b fks)%Q.
Proof.
  unfold users_per_state_resident.
  induction fks as [|fk fks IH]; intros v; simpl.
  - ring.
  - rewrite IH. unfold Qdiv. ring.
Qed.

(** The table of usage percentages, entry by entry. *)
Lemma est_ltcf_user_by_age_brackets_perc_table (pop : Q)
    (fks : list facility_users) :
  ~ (pop == 0)%Q ->
  let e b :=
    fold_left
      (fun acc fk =>
         (acc + bracket_share b fk * inject_Z (users_total fk)
                * pop / state_pop_2018)%Q) fks 0%Q in
  let d b := default 0%Q (state_age_distr_2018 !! b) in
  let p b := (e b / d b / pop)%Q in
  est_ltcf_user_by_age_brackets_perc pop fks
  = Ok (list_to_map
          [("60-64", p "60-64"); ("65-69", p "65-74"); ("70-74", p "65-74");
           ("75-79", p "75-84"); ("80-84", p "75-84");
           ("85-100", p "85-100")]).
Proof.
  intros Hpop e d p.
  destruct (est_seattle_users_from pop fks
              (list_to_map (map (fun b => (b, 0%Q)) survey_brackets)))
    as (est & Hrun & Hlook).
  { intros b Hb. unfold survey_brackets in Hb.
    repeat (apply elem_of_cons in Hb as [->|Hb]);
      try (now apply elem_of_nil in Hb); exists 0%Q; reflexivity. }
  assert (He : forall b, b ∈ survey_brackets -> est !! b = Some (e b)).
  { intros b Hb. rewrite (Hlook b Hb).
    assert (H0 : (list_to_map (map (fun b => (b, 0%Q)) survey_brackets)
                  : gmap string Q) !! b = Some 0%Q).
    { unfold survey_brackets in Hb.
      repeat (apply elem_of_cons in Hb as [->|Hb]); try reflexivity.
      now apply elem_of_nil in Hb. }
    now rewrite H0. }
  assert (Hpop' : Qeq_bool pop 0 = false).
  { apply not_true_iff_false. intros H. now apply Qeq_bool_iff in H. }
  assert (Hstep : forall perc b, b ∈ survey_brackets ->
                    usage_perc_of pop est perc b = Ok (<[b := p b]> perc)).
  { intros perc b Hb. unfold usage_perc_of. rewrite (He b Hb). run_binds.
    unfold survey_brackets in Hb.
    repeat (apply elem_of_cons in Hb as [->|Hb]);
      try (now apply elem_of_nil in Hb);
      (match goal with
       | |- context [state_age_distr_2018 !! ?b] =>
           change (state_age_distr_2018 !! b) with (Some (d b));
           run_binds; change (Qeq_bool (d b) 0) with false
       end; cbn [orb]; rewrite Hpop'; reflexivity). }
  unfold est_ltcf_user_by_age_brackets_perc, est_seattle_users_2018.
  rewrite Hrun. run_binds. unfold survey_brackets at 1. cbn [for_each].
  do 4 (rewrite Hstep by by_computation; run_binds).
  generalize (p "60-64") (p "65-74") (p "75-84") (p "85-100").
  intros p1 p2 p3 p4. reflexivity.
Qed.

(** X4. For a population constant that is not zero, the table of usage
    percentages is always built, whatever the survey numbers: it ends with
    exactly the six brackets 60-64, 65-69, 70-74, 75-79, 80-84 and 85-100,
    the two halves of a survey bracket carry the same percentage, the
    survey keys 65-74 and 75-84 are gone, and every key the per-age loop
    reads is there. *)
Theorem usage_perc_has_six_brackets (pop : Q)
    (facillity_users : list facility_users) :
  ~ (pop == 0)%Q ->
  exists perc,
    est_ltcf_user_by_age_brackets_perc pop facillity_users = Ok perc
    /\ dom perc = list_to_set local_brackets
    /\ perc !! "65-69" = perc !! "70-74"
    /\ perc !! "75-79" = perc !! "80-84"
    /\ perc !! "65-74" = None
    /\ perc !! "75-84" = None
    /\ forall a, is_Some (perc !! usage_key a).
Proof.
  intros Hpop.
  pose proof (est_ltcf_user_by_age_brackets_perc_table pop facillity_users
                Hpop) as Htable.
  cbv zeta in Htable. revert Htable.
  generalize (fold_left
                (fun acc fk =>
                   (acc + bracket_share "60-64" fk
                          * inject_Z (users_total fk) * pop
                          / state_pop_2018)%Q) facillity_users 0%Q).
  generalize (fold_left
                (fun acc fk =>
                   (acc + bracket_share "65-74" fk
                          * inject_Z (users_total fk) * pop
                          / state_pop_2018)%Q) facillity_users 0%Q).
  generalize (fold_left
                (fun acc fk =>
                   (acc + bracket_share "75-84" fk
                          * inject_Z (users_total fk) * pop
                          / state_pop_2018)%Q) facillity_users 0%Q).
  generalize (fold_left
                (fun acc fk =>
                   (acc + bracket_share "85-100" fk
                          * inject_Z (users_total fk) * pop
                          / state_pop_2018)%Q) facillity_users 0%Q).
  intros e4 e3 e2 e1 Htable. eexists. split; [exact Htable|].
  split; [reflexivity|]. split; [reflexivity|]. split; [reflexivity|].
  split; [reflexivity|]. split; [reflexivity|].
  intros a. unfold usage_key.
  destruct (a <? 65); [now eexists|].
  destruct (a <? 75); [now eexists|].
  destruct (a <? 85); now eexists.
Qed.

Lemma usage_perc_has_six_brackets_witness :
  exists perc,
    est_ltcf_user_by_age_brackets_perc king_county_pop small_facility_users
      = Ok perc
    /\ dom perc = list_to_set local_brackets
    /\ forall a, is_Some (perc !! usage_key a).
Proof.
  destruct (usage_perc_has_six_brackets king_county_pop small_facility_users)
    as (perc & Hrun & Hdom & _ & _ & _ & _ & Hkeys).
  - intros H. vm_compute in H. discriminate.
  - exists perc. auto.
Defined.

Lemma usage_perc_value (pop d : Q) (b : string)
    (fks : list facility_users) :
  ~ (pop == 0)%Q -> ~ (d == 0)%Q ->
  (fold_left
     (fun acc fk =>
        acc + bracket_share b fk * inject_Z (users_total fk) * pop
              / state_pop_2018) fks 0 / d / pop
   == users_per_state_resident b fks / d)%Q.
Proof.
  intros Hpop Hd. rewrite fold_users_scaled. now field.
Qed.

(** X5. The population constant cancels out of the usage percentages: for
    every bracket of the table the percentage is the number of users of its
    survey bracket per state resident, summed over the facility types,
    divided by the share of that bracket in the state's 2018 population.
    It is the same for every non-zero value of [pop]. *)
Theorem usage_perc_independent_of_pop (pop : Q)
    (facillity_users : list facility_users) (perc : gmap string Q) :
  ~ (pop == 0)%Q ->
  est_ltcf_user_by_age_brackets_perc pop facillity_users = Ok perc ->
  forall k v, perc !! k = Some v ->
    exists d,
      state_age_distr_2018 !! survey_bracket_of k = Some d
      /\ (v == users_per_state_resident (survey_bracket_of k) facillity_users
               / d)%Q.
Proof.
  intros Hpop Hrun k v Hk.
  rewrite (est_ltcf_user_by_age_brackets_perc_table pop facillity_users Hpop)
    in Hrun.
  injection Hrun as <-.
  repeat (apply lookup_insert_Some in Hk as [[<- <-]|[_ Hk]]);
    try (now rewrite lookup_empty in Hk);
    (eexists; split; [reflexivity|]);
    (apply usage_perc_value; [exact Hpop|]);
    intros H; vm_compute in H; discriminate.
Qed.

Lemma usage_perc_independent_of_pop_witness :
  exists perc v,
    est_ltcf_user_by_age_brackets_perc king_county_pop small_facility_users
      = Ok perc
    /\ perc !! "70-74" = Some v
    /\ (v == users_per_state_resident "65-74" small_facility_users
             / ((95 # 10) / 100))%Q.
Proof.
  assert (Hpop : ~ (king_county_pop == 0)%Q)
    by (intros H; vm_compute in H; discriminate).
  destruct (ok_run
              (est_ltcf_user_by_age_brackets_perc king_county_pop
                 small_facility_users)
              (fun perc => bool_decide (is_Some (perc !! "70-74"))))
    as (perc & E & Hb); [vm_compute; reflexivity|].
  apply bool_decide_eq_true in Hb. destruct Hb as [v Hv].
  exists perc, v. split; [exact E|]. split; [exact Hv|].
  destruct (usage_perc_independent_of_pop _ _ _ Hpop E "70-74" v Hv)
    as (d & Hd & Hval).
  injection Hd as <-. exact Hval.
Defined.

(** ** The entries of the popdict *)

Lemma link_entry (k : layer) (G : gset uid) (flag : person -> person)
    (pop pop' : gmap uid person) (u : uid) :
  (forall p, age (flag p) = age p) ->
  link k G flag pop u = Ok pop' ->
  is_Some (pop !! u)
  /\ forall v, age <$> pop' !! v = age <$> pop !! v.
Proof.
  intros Hflag Hrun. unfold link in Hrun.
  bind_inv Hrun p Hp. bind_inv Hrun s Hs. injection Hrun as <-.
  apply getitem_ok in Hp. split; [eauto|]. intros v.
  destruct (decide (v = u)) as [->|Hne].
  - rewrite lookup_insert_eq, Hp. simpl. now rewrite Hflag.
  - now rewrite lookup_insert_ne by congruence.
Qed.

Lemma for_each_link_entries (k : layer) (G : gset uid)
    (flag : person -> person) :
  (forall p, age (flag p) = age p) ->
  forall (members : list uid) (pop pop' : gmap uid person),
    for_each (link k G flag) members pop = Ok pop' ->
    (forall u, u ∈ members -> is_Some (pop !! u))
    /\ forall v, age <$> pop' !! v = age <$> pop !! v.
Proof.
  intros Hflag. induction members as [|u members IH]; intros pop pop' Hrun.
  - simpl in Hrun. injection Hrun as <-. split; [|reflexivity].
    intros u Hu. now apply elem_of_nil in Hu.
  - simpl in Hrun. bind_inv Hrun pop1 H1.
    destruct (link_entry k G flag pop pop1 u Hflag H1) as [Hu Hage1].
    destruct (IH pop1 pop' Hrun) as [Hmembers Hage]. split.
    + intros v Hv. apply elem_of_cons in Hv as [->|Hv]; [assumption|].
      apply Hmembers in Hv. rewrite <- (fmap_is_Some age) in Hv |- *.
      now rewrite <- Hage1.
    + intros v. now rewrite Hage, Hage1.
Qed.

(** A run of a loop over groups that ends has found an entry for every
    member, and has kept every entry and its age. *)
Lemma link_groups_entries (k : layer) :
  forall (groups : list (list uid)) (pop pop' : gmap uid person),
    for_each (link_group k) groups pop = Ok pop' ->
    (forall u, u ∈ concat groups -> is_Some (pop !! u))
    /\ forall v, age <$> pop' !! v = age <$> pop !! v.
Proof.
  induction groups as [|g groups IH]; intros pop pop' Hrun.
  - simpl in Hrun. injection Hrun as <-. split; [|reflexivity].
    intros u Hu. now apply elem_of_nil in Hu.
  - simpl in Hrun. bind_inv Hrun pop1 H1.
    destruct (for_each_link_entries k (set_of g) id (fun _ => eq_refl)
                g pop pop1 H1) as [Hg Hage1].
    destruct (IH pop1 pop' Hrun) as [Hrest Hage]. split.
    + intros v Hv. simpl in Hv. apply elem_of_app in Hv as [Hv|Hv]; [auto|].
      apply Hrest in Hv. rewrite <- (fmap_is_Some age) in Hv |- *.
      now rewrite <- Hage1.
    + intros v. now rewrite Hage, Hage1.
Qed.

Lemma link_facilities_entries (staff : list (list uid)) :
  forall (facilities : list (list uid)) (n : nat)
         (pop pop' : gmap uid person),
    for_each_enumerate (link_facility staff) n facilities pop = Ok pop' ->
    (length facilities <= length (drop n staff))%nat
    /\ (forall u, u ∈ concat facilities -> is_Some (pop !! u))
    /\ (forall u, u ∈ concat (take (length facilities) (drop n staff)) ->
                  is_Some (pop !! u))
    /\ forall v, age <$> pop' !! v = age <$> pop !! v.
Proof.
  induction facilities as [|fc facilities IH]; intros n pop pop' Hrun.
  - simpl in Hrun. injection Hrun as <-. simpl.
    split; [lia|]. split; [|split; [|reflexivity]];
      intros u Hu; now apply elem_of_nil in Hu.
  - simpl in Hrun. bind_inv Hrun pop1 H1. unfold link_facility in H1.
    bind_inv H1 st Hst. bind_inv H1 pop0 H0. apply index_lookup in Hst.
    destruct (for_each_link_entries _ _ set_snf_res (fun _ => eq_refl)
                _ _ _ H0) as [Hfc Hage0].
    destruct (for_each_link_entries _ _ set_snf_staff (fun _ => eq_refl)
                _ _ _ H1) as [Hstaff Hage1].
    destruct (IH (S n) pop1 pop' Hrun) as (Hlen & Hrest & Hreststaff & Hage).
    assert (Hdrop : drop n staff = st :: drop (S n) staff)
      by (now apply drop_S).
    assert (Hkeep : forall v, is_Some (pop1 !! v) -> is_Some (pop !! v)).
    { intros v Hv. rewrite <- (fmap_is_Some age) in Hv |- *.
      now rewrite <- Hage0, <- Hage1. }
    rewrite Hdrop. simpl. split; [lia|]. split; [|split].
    + intros u Hu. apply elem_of_app in Hu as [Hu|Hu]; auto.
    + intros u Hu. apply elem_of_app in Hu as [Hu|Hu]; [|auto].
      apply Hstaff in Hu. rewrite <- (fmap_is_Some age) in Hu |- *.
      now rewrite <- Hage0.
    + intros v. now rewrite Hage, Hage1, Hage0.
Qed.

Lemma init_popdict_entries (sex_tape : nat -> nat) :
  forall (items : list (uid * Z)) (i : nat) (pop : gmap uid person) (u : uid),
    (is_Some (init_popdict sex_tape i items pop !! u)
     <-> u ∈ map fst items \/ is_Some (pop !! u))
    /\ (NoDup (map fst items) -> forall a, (u, a) ∈ items ->
        age <$> init_popdict sex_tape i items pop !! u = Some a)
    /\ (u ∉ map fst items ->
        init_popdict sex_tape i items pop !! u = pop !! u).
Proof.
  induction items as [|[u0 a0] items IH]; intros i pop u.
  - simpl. split; [|split]; [|intros _ a Ha; now apply elem_of_nil in Ha|auto].
    split; [auto|]. intros [Hu|Hu]; [now apply elem_of_nil in Hu|assumption].
  - cbn [init_popdict map fst].
    destruct (IH (S i)
                (<[u0 := {| age := a0; sex := Z.of_nat (sex_tape i mod 2);
                            contacts := fun _ => ∅;
                            snf_res := None; snf_staff := None |}]> pop) u)
      as (Hdom & Hage & Hout).
    split; [|split].
    + rewrite Hdom, elem_of_cons. destruct (decide (u = u0)) as [->|Hne].
      * rewrite lookup_insert_eq. split; [auto|]. intros _. right. eauto.
      * rewrite lookup_insert_ne by congruence. tauto.
    + intros Hnd a Ha. apply NoDup_cons in Hnd as [Hfresh Hnd].
      apply elem_of_cons in Ha as [Heq|Ha].
      * injection Heq as -> ->. rewrite Hout by assumption.
        now rewrite lookup_insert_eq.
      * now apply Hage.
    + intros Hu. rewrite not_elem_of_cons in Hu. destruct Hu as [Hne Hu].
      rewrite Hout by assumption. now rewrite lookup_insert_ne by congruence.
Qed.

Lemma make_contacts_passes (sex_tape : nat -> nat)
    (ages : list (uid * Z))
    (homes schools workplaces facilities staff : list (list uid))
    (popdict : gmap uid person) :
  make_contacts_with_facilities_from_microstructure_objects sex_tape
    ages homes schools workplaces facilities staff = Ok popdict ->
  exists pop1 pop2 pop3,
    for_each_enumerate (link_facility staff) 0 facilities
      (init_popdict sex_tape 0 ages ∅) = Ok pop1
    /\ for_each (link_group layer_H) (drop (length facilities) homes) pop1
       = Ok pop2
    /\ for_each (link_group layer_S) schools pop2 = Ok pop3
    /\ for_each (link_group layer_W) workplaces pop3 = Ok popdict.
Proof.
  unfold make_contacts_with_facilities_from_microstructure_objects.
  intros Hrun. bind_inv Hrun pop1 H1. bind_inv Hrun pop2 H2.
  bind_inv Hrun pop3 H3. rewrite slice_from_nat in H2.
  exists pop1, pop2, pop3. auto.
Qed.

(** X6. The popdict the assembler returns has an entry for exactly the uids
    of [age_by_uid_dic], and the entry of a uid carries the age recorded
    for it there. *)
Theorem popdict_has_the_recorded_ages (sex_tape : nat -> nat)
    (age_by_uid_dic : list (uid * Z))
    (homes_by_uids schools_by_uids workplaces_by_uids : list (list uid))
    (facilities_by_uids facilities_staff_uids : list (list uid))
    (popdict : gmap uid person) :
  make_contacts_with_facilities_from_microstructure_objects sex_tape
    age_by_uid_dic homes_by_uids schools_by_uids workplaces_by_uids
    facilities_by_uids facilities_staff_uids = Ok popdict ->
  NoDup (map fst age_by_uid_dic) ->
  dom popdict = known_uids age_by_uid_dic
  /\ forall u a, (u, a) ∈ age_by_uid_dic -> age <$> popdict !! u = Some a.
Proof.
  intros Hrun Hnd.
  destruct (make_contacts_passes _ _ _ _ _ _ _ _ Hrun)
    as (pop1 & pop2 & pop3 & Hfac & HH & HS & HW).
  destruct (link_facilities_entries _ _ _ _ _ Hfac) as (_ & _ & _ & Hage1).
  destruct (link_groups_entries _ _ _ _ HH) as (_ & Hage2).
  destruct (link_groups_entries _ _ _ _ HS) as (_ & Hage3).
  destruct (link_groups_entries _ _ _ _ HW) as (_ & Hage4).
  assert (Hage : forall v, age <$> popdict !! v
                           = age <$> init_popdict sex_tape 0 age_by_uid_dic ∅
                                       !! v).
  { intros v. now rewrite Hage4, Hage3, Hage2, Hage1. }
  split.
  - apply set_eq. intros u. rewrite elem_of_dom, <- (fmap_is_Some age), Hage.
    rewrite fmap_is_Some.
    destruct (init_popdict_entries sex_tape age_by_uid_dic 0 ∅ u)
      as (Hdom & _ & _).
    rewrite Hdom, lookup_empty. unfold known_uids.
    rewrite elem_of_list_to_set, is_Some_alt. tauto.
  - intros u a Hin. rewrite Hage.
    destruct (init_popdict_entries sex_tape age_by_uid_dic 0 ∅ u)
      as (_ & Hages & _). now apply Hages.
Qed.

Lemma popdict_has_the_recorded_ages_witness :
  exists popdict,
    make_contacts_with_facilities_from_microstructure_objects (fun _ => O)
      [("r", 80); ("s", 30); ("t", 31)] [["r"]; ["s"; "t"]] [["t"]] []
      [["r"]] [["s"]] = Ok popdict
    /\ dom popdict = {[ "r"; "s"; "t" ]}
    /\ age <$> popdict !! "t" = Some 31.
Proof.
  destruct (ok_run
              (make_contacts_with_facilities_from_microstructure_objects
                 (fun _ => O) [("r", 80); ("s", 30); ("t", 31)]
                 [["r"]; ["s"; "t"]] [["t"]] [] [["r"]] [["s"]])
              (fun _ => true))
    as (popdict & E & _); [vm_compute; reflexivity|].
  exists popdict. split; [exact E|].
  destruct (popdict_has_the_recorded_ages _ _ _ _ _ _ _ _ E)
    as (Hdom & Hages); [by_computation|].
  split.
  - rewrite Hdom. by_computation.
  - apply Hages. by_computation.
Defined.

(** ** When the assembler answers *)

Lemma for_each_link_total (k : layer) (G : gset uid)
    (flag : person -> person) :
  (forall p, age (flag p) = age p) ->
  forall (members : list uid) (pop : gmap uid person),
    (forall u, u ∈ members -> is_Some (pop !! u) /\ u ∈ G) ->
    exists pop', for_each (link k G flag) members pop = Ok pop'.
Proof.
  intros Hflag. induction members as [|u members IH]; intros pop Hknown.
  - now exists pop.
  - destruct (Hknown u) as [[p Hp] HuG]; [now left|].
    assert (H1 : link k G flag pop u
                 = Ok (<[u := flag (set_contacts k (G ∖ {[u]}) p)]> pop)).
    { unfold link, set_remove. rewrite Hp. run_binds.
      now rewrite decide_True by assumption. }
    destruct (link_entry k G flag _ _ u Hflag H1) as [_ Hage].
    destruct (IH (<[u := flag (set_contacts k (G ∖ {[u]}) p)]> pop))
      as (pop' & Hrun).
    { intros v Hv. destruct (Hknown v) as [Hv1 Hv2]; [now right|].
      split; [|assumption]. rewrite <- (fmap_is_Some age) in Hv1 |- *.
      now rewrite Hage. }
    exists pop'. cbn [for_each]. rewrite H1. run_binds. exact Hrun.
Qed.

Lemma link_groups_total (k : layer) :
  forall (groups : list (list uid)) (pop : gmap uid person),
    (forall u, u ∈ concat groups -> is_Some (pop !! u)) ->
    exists pop', for_each (link_group k) groups pop = Ok pop'.
Proof.
  induction groups as [|g groups IH]; intros pop Hknown.
  - now exists pop.
  - destruct (for_each_link_total k (set_of g) id (fun _ => eq_refl) g pop)
      as (pop1 & H1).
    { intros u Hu. split; [|now apply elem_of_list_to_set].
      apply Hknown. simpl. apply elem_of_app. now left. }
    destruct (for_each_link_entries k (set_of g) id (fun _ => eq_refl)
                g pop pop1 H1) as [_ Hage].
    destruct (IH pop1) as (pop' & Hrun).
    { intros u Hu. rewrite <- (fmap_is_Some age), Hage, fmap_is_Some.
      apply Hknown. simpl. apply elem_of_app. now right. }
    assert (H1' : link_group k pop g = Ok pop1) by exact H1.
    exists pop'. cbn [for_each]. rewrite H1'. run_binds. exact Hrun.
Qed.

Lemma link_facilities_total (staff : list (list uid)) :
  forall (facilities : list (list uid)) (n : nat) (pop : gmap uid person),
    (length facilities <= length (drop n staff))%nat ->
    (forall u, u ∈ concat facilities -> is_Some (pop !! u)) ->
    (forall u, u ∈ concat (take (length facilities) (drop n staff)) ->
               is_Some (pop !! u)) ->
    exists pop',
      for_each_enumerate (link_facility staff) n facilities pop = Ok pop'.
Proof.
  induction facilities as [|fc facilities IH]; intros n pop Hlen Hres Hstaff.
  - now exists pop.
  - destruct (drop n staff) as [|st rest] eqn:Hdrop; [simpl in Hlen; lia|].
    assert (Hst : staff !! n = Some st).
    { rewrite <- (Nat.add_0_r n), <- lookup_drop, Hdrop. reflexivity. }
    assert (Hrest : drop (S n) staff = rest).
    { pose proof (drop_S staff st n Hst) as HS. rewrite Hdrop in HS.
      now injection HS as <-. }
    assert (Hindex : index staff n = Ok st).
    { unfold index. clear -Hst. revert n Hst.
      induction staff as [|x staff IHs]; intros [|n] Hst; simpl in *;
        try discriminate; [now injection Hst as ->|auto]. }
    simpl in Hlen, Hres, Hstaff.
    destruct (for_each_link_total layer_LTCF (set_of fc ∪ set_of st)
                set_snf_res (fun _ => eq_refl) fc pop) as (pop0 & H0).
    { intros u Hu. split.
      - apply Hres, elem_of_app. now left.
      - apply elem_of_union. left. now apply elem_of_list_to_set. }
    destruct (for_each_link_entries _ _ set_snf_res (fun _ => eq_refl)
                _ _ _ H0) as [_ Hage0].
    destruct (for_each_link_total layer_W (set_of fc ∪ set_of st)
                set_snf_staff (fun _ => eq_refl) st pop0) as (pop1 & H1).
    { intros u Hu. split.
      - rewrite <- (fmap_is_Some age), Hage0, fmap_is_Some.
        apply Hstaff, elem_of_app. now left.
      - apply elem_of_union. right. now apply elem_of_list_to_set. }
    destruct (for_each_link_entries _ _ set_snf_staff (fun _ => eq_refl)
                _ _ _ H1) as [_ Hage1].
    destruct (IH (S n) pop1) as (pop' & Hrun).
    + rewrite Hrest. lia.
    + intros u Hu. rewrite <- (fmap_is_Some age), Hage1, Hage0, fmap_is_Some.
      apply Hres, elem_of_app. now right.
    + intros u Hu. rewrite Hrest in Hu.
      rewrite <- (fmap_is_Some age), Hage1, Hage0, fmap_is_Some.
      apply Hstaff, elem_of_app. now right.
    + assert (Hfc : link_facility staff pop n fc = Ok pop1).
      { unfold link_facility. rewrite Hindex. run_binds. rewrite H0.
        run_binds. exact H1. }
      exists pop'. cbn [for_each_enumerate]. rewrite Hfc. run_binds.
      exact Hrun.
Qed.

Lemma init_popdict_known (sex_tape : nat -> nat) (ages : list (uid * Z))
    (u : uid) :
  is_Some (init_popdict sex_tape 0 ages ∅ !! u) <-> u ∈ known_uids ages.
Proof.
  destruct (init_popdict_entries sex_tape ages 0 ∅ u) as (Hdom & _ & _).
  rewrite Hdom, lookup_empty. unfold known_uids.
  rewrite elem_of_list_to_set, is_Some_alt. tauto.
Qed.

Lemma is_Some_same_age (pop pop' : gmap uid person) :
  (forall v, age <$> pop' !! v = age <$> pop !! v) ->
  forall v, is_Some (pop' !! v) <-> is_Some (pop !! v).
Proof.
  intros Hage v. now rewrite <- (fmap_is_Some age), Hage, fmap_is_Some.
Qed.

(** X7. The assembler returns a popdict exactly when every facility has a
    staff list and every uid of the groups it links (the facilities, their
    staff lists, the ordinary households, the schools and the workplaces)
    has an entry in [age_by_uid_dic]; otherwise it raises. *)
Theorem make_contacts_answers_iff_groups_known (sex_tape : nat -> nat)
    (age_by_uid_dic : list (uid * Z))
    (homes_by_uids schools_by_uids workplaces_by_uids : list (list uid))
    (facilities_by_uids facilities_staff_uids : list (list uid)) :
  (exists popdict,
     make_contacts_with_facilities_from_microstructure_objects sex_tape
       age_by_uid_dic homes_by_uids schools_by_uids workplaces_by_uids
       facilities_by_uids facilities_staff_uids = Ok popdict)
  <-> ((length facilities_by_uids <= length facilities_staff_uids)%nat
       /\ forall u,
            u ∈ concat (linked_groups homes_by_uids schools_by_uids
                          workplaces_by_uids facilities_by_uids
                          facilities_staff_uids) ->
            u ∈ known_uids age_by_uid_dic).
Proof.
  unfold linked_groups. split.
  - intros (popdict & Hrun).
    destruct (make_contacts_passes _ _ _ _ _ _ _ _ Hrun)
      as (pop1 & pop2 & pop3 & Hfac & HH & HS & HW).
    destruct (link_facilities_entries _ _ _ _ _ Hfac)
      as (Hlen & Hres & Hstaff & Hage1).
    destruct (link_groups_entries _ _ _ _ HH) as (Hhomes & Hage2).
    destruct (link_groups_entries _ _ _ _ HS) as (Hschools & Hage3).
    destruct (link_groups_entries _ _ _ _ HW) as (Hwork & _).
    rewrite drop_0 in Hlen, Hstaff. split; [exact Hlen|].
    pose proof (is_Some_same_age _ _ Hage1) as H1.
    pose proof (is_Some_same_age _ _ Hage2) as H2.
    pose proof (is_Some_same_age _ _ Hage3) as H3.
    intros u Hu. apply (proj1 (init_popdict_known sex_tape age_by_uid_dic u)).
    rewrite !concat_app in Hu.
    repeat (apply elem_of_app in Hu as [Hu|Hu]); auto.
    + apply H1. auto.
    + apply H1, H2. auto.
    + apply H1, H2, H3. auto.
  - intros [Hlen Hknown].
    assert (Hin : forall groups,
              (forall u, u ∈ concat groups ->
                 u ∈ concat (facilities_by_uids
                             ++ take (length facilities_by_uids)
                                  facilities_staff_uids
                             ++ drop (length facilities_by_uids) homes_by_uids
                             ++ schools_by_uids ++ workplaces_by_uids)) ->
              forall u, u ∈ concat groups ->
                is_Some (init_popdict sex_tape 0 age_by_uid_dic ∅ !! u)).
    { intros groups Hsub u Hu.
      apply (proj2 (init_popdict_known sex_tape age_by_uid_dic u)).
      apply Hknown, Hsub, Hu. }
    destruct (link_facilities_total facilities_staff_uids facilities_by_uids 0
                (init_popdict sex_tape 0 age_by_uid_dic ∅))
      as (pop1 & Hfac).
    { now rewrite drop_0. }
    { apply Hin. intros u Hu. rewrite !concat_app, !elem_of_app. auto. }
    { rewrite drop_0. apply Hin. intros u Hu.
      rewrite !concat_app, !elem_of_app. auto. }
    destruct (link_facilities_entries _ _ _ _ _ Hfac) as (_ & _ & _ & Hage1).
    pose proof (is_Some_same_age _ _ Hage1) as H1.
    destruct (link_groups_total layer_H
                (drop (length facilities_by_uids) homes_by_uids) pop1)
      as (pop2 & HH).
    { intros u Hu. apply H1.
      revert u Hu. apply Hin. intros u Hu.
      rewrite !concat_app, !elem_of_app. auto. }
    destruct (link_groups_entries _ _ _ _ HH) as (_ & Hage2).
    pose proof (is_Some_same_age _ _ Hage2) as H2.
    destruct (link_groups_total layer_S schools_by_uids pop2) as (pop3 & HS).
    { intros u Hu. apply H2, H1.
      revert u Hu. apply Hin. intros u Hu.
      rewrite !concat_app, !elem_of_app. auto. }
    destruct (link_groups_entries _ _ _ _ HS) as (_ & Hage3).
    pose proof (is_Some_same_age _ _ Hage3) as H3.
    destruct (link_groups_total layer_W workplaces_by_uids pop3)
      as (popdict & HW).
    { intros u Hu. apply H3, H2, H1.
      revert u Hu. apply Hin. intros u Hu.
      rewrite !concat_app, !elem_of_app. auto 6. }
    exists popdict.
    unfold make_contacts_with_facilities_from_microstructure_objects.
    rewrite Hfac. run_binds. rewrite slice_from_nat, HH. run_binds.
    rewrite HS. run_binds. exact HW.
Qed.

(** ** Who is linked to whom *)

(** The facility pass leaves alone the 'LTCF' set of whoever is in no
    facility and the 'W' set of whoever is on no staff list in use. *)
Lemma link_facilities_untouched (staff : list (list uid)) (v : uid)
    (k' : layer) :
  forall (facilities : list (list uid)) (n : nat)
         (pop pop' : gmap uid person),
    for_each_enumerate (link_facility staff) n facilities pop = Ok pop' ->
    (k' = layer_LTCF -> v ∉ concat facilities) ->
    (k' = layer_W ->
     v ∉ concat (take (length facilities) (drop n staff))) ->
    contacts_of pop' v k' = contacts_of pop v k'.
Proof.
  induction facilities as [|fc facilities IH]; intros n pop pop' Hrun HL HW.
  - simpl in Hrun. now injection Hrun as <-.
  - simpl in Hrun. bind_inv Hrun pop1 H1.
    destruct (link_facility_contacts staff pop pop1 n fc H1)
      as (st & Hst & Hc).
    pose proof (drop_S staff st n Hst) as Hdrop.
    rewrite Hdrop in HW. simpl in HL, HW.
    rewrite (IH (S n) pop1 pop' Hrun).
    + rewrite Hc. rewrite decide_False.
      * rewrite decide_False; [reflexivity|].
        intros [-> Hv]. apply HL; [reflexivity|]. apply elem_of_app. now left.
      * intros [-> Hv]. apply HW; [reflexivity|]. apply elem_of_app.
        now left.
    + intros Hk Hv. apply (HL Hk). apply elem_of_app. now right.
    + intros Hk Hv. apply (HW Hk). apply elem_of_app. now right.
Qed.

(** After the facility pass a resident has its facility and the facility's
    staff as 'LTCF' contacts, and a staff member has them as 'W' contacts,
    when no uid is in two facilities (on two staff lists). *)
Lemma link_facilities_members (staff : list (list uid)) :
  forall (facilities : list (list uid)) (n : nat)
         (pop pop' : gmap uid person),
    for_each_enumerate (link_facility staff) n facilities pop = Ok pop' ->
    forall (j : nat) (fc st : list uid) (u : uid),
      facilities !! j = Some fc -> staff !! (n + j)%nat = Some st ->
      (u ∈ fc -> NoDup (concat facilities) ->
       contacts_of pop' u layer_LTCF
       = (set_of fc ∪ set_of st) ∖ {[u]})
      /\ (u ∈ st ->
          NoDup (concat (take (length facilities) (drop n staff))) ->
          contacts_of pop' u layer_W = (set_of fc ∪ set_of st) ∖ {[u]}).
Proof.
  induction facilities as [|fc0 facilities IH];
    intros n pop pop' Hrun j fc st u Hj Hst.
  - rewrite lookup_nil in Hj. discriminate.
  - simpl in Hrun. bind_inv Hrun pop1 H1.
    destruct (link_facility_contacts staff pop pop1 n fc0 H1)
      as (st0 & Hst0 & Hc).
    pose proof (drop_S staff st0 n Hst0) as Hdrop.
    destruct j as [|j].
    + simpl in Hj. injection Hj as ->. rewrite Nat.add_0_r in Hst.
      rewrite Hst in Hst0. injection Hst0 as <-. split.
      * intros Hu Hnd. simpl in Hnd.
        apply NoDup_app in Hnd as (_ & Hdisj & _).
        rewrite (link_facilities_untouched staff u layer_LTCF _ _ _ _ Hrun);
          [|intros _; now apply Hdisj|discriminate].
        rewrite Hc, decide_False by (intros [? _]; discriminate).
        now rewrite decide_True by auto.
      * intros Hu Hnd. rewrite Hdrop in Hnd. simpl in Hnd.
        apply NoDup_app in Hnd as (_ & Hdisj & _).
        rewrite (link_facilities_untouched staff u layer_W _ _ _ _ Hrun);
          [|discriminate|intros _; now apply Hdisj].
        rewrite Hc. now rewrite decide_True by auto.
    + simpl in Hj. replace (n + S j)%nat with (S n + j)%nat in Hst by lia.
      destruct (IH (S n) pop1 pop' Hrun j fc st u Hj Hst) as [HL HW].
      split.
      * intros Hu Hnd. apply HL; [assumption|]. simpl in Hnd.
        now apply NoDup_app in Hnd as (_ & _ & Hnd).
      * intros Hu Hnd. apply HW; [assumption|]. rewrite Hdrop in Hnd.
        simpl in Hnd. now apply NoDup_app in Hnd as (_ & _ & Hnd).
Qed.

(** A pass over groups gives a uid the set of the last group it is in. *)
Lemma link_groups_last (k : layer) (g : list uid) (post : list (list uid))
    (u : uid) :
  forall (pre : list (list uid)) (pop pop' : gmap uid person),
    for_each (link_group k) (pre ++ g :: post) pop = Ok pop' ->
    u ∈ g -> u ∉ concat post ->
    contacts_of pop' u k = set_of g ∖ {[u]}.
Proof.
  induction pre as [|g0 pre IH]; intros pop pop' Hrun Hu Hpost.
  - simpl in Hrun. bind_inv Hrun pop1 H1.
    rewrite (link_groups_frame k post pop1 pop' u k Hrun) by now right.
    rewrite (link_group_contacts k pop pop1 g H1).
    now rewrite decide_True by auto.
  - simpl in Hrun. bind_inv Hrun pop1 H1. now apply (IH pop1 pop').
Qed.

(** X8. When no uid is in two facilities, the 'LTCF' contacts of a
    facility resident in the returned popdict are the other residents of
    its facility together with that facility's staff, whatever the
    households, schools and workplaces are. *)
Theorem resident_contacts_are_facility_and_staff (sex_tape : nat -> nat)
    (age_by_uid_dic : list (uid * Z))
    (homes_by_uids schools_by_uids workplaces_by_uids : list (list uid))
    (facilities_by_uids facilities_staff_uids : list (list uid))
    (popdict : gmap uid person) (nf : nat) (facility : list uid) (u : uid) :
  make_contacts_with_facilities_from_microstructure_objects sex_tape
    age_by_uid_dic homes_by_uids schools_by_uids workplaces_by_uids
    facilities_by_uids facilities_staff_uids = Ok popdict ->
  disjoint_groups facilities_by_uids ->
  facilities_by_uids !! nf = Some facility ->
  u ∈ facility ->
  exists facility_staff,
    facilities_staff_uids !! nf = Some facility_staff
    /\ contacts_of popdict u layer_LTCF
       = (set_of facility ∪ set_of facility_staff) ∖ {[u]}.
Proof.
  intros Hrun Hnd Hnf Hu.
  destruct (make_contacts_passes _ _ _ _ _ _ _ _ Hrun)
    as (pop1 & pop2 & pop3 & H1 & H2 & H3 & H4).
  destruct (link_facilities_entries _ _ _ _ _ H1) as (Hlen & _).
  rewrite drop_0 in Hlen.
  destruct (lookup_lt_is_Some_2 facilities_staff_uids nf) as [st Hst].
  { apply lookup_lt_Some in Hnf. lia. }
  exists st. split; [exact Hst|].
  rewrite (link_groups_frame _ _ _ _ u layer_LTCF H4) by (left; discriminate).
  rewrite (link_groups_frame _ _ _ _ u layer_LTCF H3) by (left; discriminate).
  rewrite (link_groups_frame _ _ _ _ u layer_LTCF H2) by (left; discriminate).
  now apply (link_facilities_members _ _ _ _ _ H1 nf facility st u Hnf Hst).
Qed.

Lemma resident_contacts_are_facility_and_staff_witness :
  exists popdict,
    make_contacts_with_facilities_from_microstructure_objects (fun _ => O)
      [("q", 90); ("r", 80); ("s", 30); ("t", 31)]
      [["q"; "r"]; ["s"; "t"]] [["t"]] [["t"; "s"]] [["q"; "r"]] [["s"]]
    = Ok popdict
    /\ contacts_of popdict "r" layer_LTCF = {[ "q"; "s" ]}.
Proof.
  destruct (ok_run
              (make_contacts_with_facilities_from_microstructure_objects
                 (fun _ => O) [("q", 90); ("r", 80); ("s", 30); ("t", 31)]
                 [["q"; "r"]; ["s"; "t"]] [["t"]] [["t"; "s"]]
                 [["q"; "r"]] [["s"]])
              (fun _ => true))
    as (popdict & E & _); [vm_compute; reflexivity|].
  exists popdict. split; [exact E|].
  destruct (resident_contacts_are_facility_and_staff _ _ _ _ _ _ _ _
              0%nat ["q"; "r"] "r" E)
    as (st & Hst & Hc); [by_computation|reflexivity|by_computation|].
  injection Hst as <-. rewrite Hc. by_computation.
Defined.

(** X9. When no uid is on two of the staff lists in use, a staff member
    that is in no workplace has as 'W' contacts the residents of its
    facility together with the rest of that facility's staff. *)
Theorem staff_contacts_are_facility_and_staff (sex_tape : nat -> nat)
    (age_by_uid_dic : list (uid * Z))
    (homes_by_uids schools_by_uids workplaces_by_uids : list (list uid))
    (facilities_by_uids facilities_staff_uids : list (list uid))
    (popdict : gmap uid person) (nf : nat)
    (facility facility_staff : list uid) (u : uid) :
  make_contacts_with_facilities_from_microstructure_objects sex_tape
    age_by_uid_dic homes_by_uids schools_by_uids workplaces_by_uids
    facilities_by_uids facilities_staff_uids = Ok popdict ->
  disjoint_groups
    (take (length facilities_by_uids) facilities_staff_uids) ->
  facilities_by_uids !! nf = Some facility ->
  facilities_staff_uids !! nf = Some facility_staff ->
  u ∈ facility_staff ->
  u ∉ concat workplaces_by_uids ->
  contacts_of popdict u layer_W
  = (set_of facility ∪ set_of facility_staff) ∖ {[u]}.
Proof.
  intros Hrun Hnd Hnf Hst Hu Hout.
  destruct (make_contacts_passes _ _ _ _ _ _ _ _ Hrun)
    as (pop1 & pop2 & pop3 & H1 & H2 & H3 & H4).
  rewrite (link_groups_frame _ _ _ _ u layer_W H4) by now right.
  rewrite (link_groups_frame _ _ _ _ u layer_W H3) by (left; discriminate).
  rewrite (link_groups_frame _ _ _ _ u layer_W H2) by (left; discriminate).
  now apply (link_facilities_members _ _ _ _ _ H1 nf facility facility_staff
               u Hnf Hst).
Qed.

Lemma staff_contacts_are_facility_and_staff_witness :
  exists popdict,
    make_contacts_with_facilities_from_microstructure_objects (fun _ => O)
      [("q", 90); ("r", 80); ("s", 30); ("t", 31)]
      [["q"; "r"]; ["s"; "t"]] [["t"]] [["t"]] [["q"; "r"]] [["s"]]
    = Ok popdict
    /\ contacts_of popdict "s" layer_W = {[ "q"; "r" ]}.
Proof.
  destruct (ok_run
              (make_contacts_with_facilities_from_microstructure_objects
                 (fun _ => O) [("q", 90); ("r", 80); ("s", 30); ("t", 31)]
                 [["q"; "r"]; ["s"; "t"]] [["t"]] [["t"]]
                 [["q"; "r"]] [["s"]])
              (fun _ => true))
    as (popdict & E & _); [vm_compute; reflexivity|].
  exists popdict. split; [exact E|].
  rewrite (staff_contacts_are_facility_and_staff _ _ _ _ _ _ _ _
             0%nat ["q"; "r"] ["s"] "s" E); by_computation || reflexivity.
Defined.

(** X10. In the household, school and workplace layers the last group
    that lists a uid decides its contacts: they are the other members of
    that group.  In particular a staff member that is also in a workplace
    keeps none of its facility in the 'W' layer. *)
Theorem last_group_gives_the_contacts (sex_tape : nat -> nat)
    (age_by_uid_dic : list (uid * Z))
    (homes_by_uids schools_by_uids workplaces_by_uids : list (list uid))
    (facilities_by_uids facilities_staff_uids : list (list uid))
    (popdict : gmap uid person) (k : layer)
    (before : list (list uid)) (group : list uid)
    (after : list (list uid)) (u : uid) :
  make_contacts_with_facilities_from_microstructure_objects sex_tape
    age_by_uid_dic homes_by_uids schools_by_uids workplaces_by_uids
    facilities_by_uids facilities_staff_uids = Ok popdict ->
  plain_groups k homes_by_uids schools_by_uids workplaces_by_uids
    facilities_by_uids = before ++ group :: after ->
  u ∈ group -> u ∉ concat after ->
  contacts_of popdict u k = set_of group ∖ {[u]}.
Proof.
  intros Hrun Hk Hu Hafter.
  destruct (make_contacts_passes _ _ _ _ _ _ _ _ Hrun)
    as (pop1 & pop2 & pop3 & H1 & H2 & H3 & H4).
  destruct k; simpl in Hk.
  - rewrite (link_groups_frame _ _ _ _ u layer_H H4) by (left; discriminate).
    rewrite (link_groups_frame _ _ _ _ u layer_H H3) by (left; discriminate).
    rewrite Hk in H2. now apply (link_groups_last _ _ _ _ _ _ _ H2).
  - rewrite (link_groups_frame _ _ _ _ u layer_S H4) by (left; discriminate).
    rewrite Hk in H3. now apply (link_groups_last _ _ _ _ _ _ _ H3).
  - rewrite Hk in H4. now apply (link_groups_last _ _ _ _ _ _ _ H4).
  - now destruct before.
  - now destruct before.
Qed.

Lemma last_group_gives_the_contacts_witness :
  exists popdict,
    make_contacts_with_facilities_from_microstructure_objects (fun _ => O)
      [("q", 90); ("r", 80); ("s", 30); ("t", 31)]
      [["q"; "r"]; ["s"; "t"]] [["t"]] [["s"]; ["t"; "s"]] [["q"; "r"]]
      [["s"]]
    = Ok popdict
    /\ contacts_of popdict "s" layer_W = {[ "t" ]}.
Proof.
  destruct (ok_run
              (make_contacts_with_facilities_from_microstructure_objects
                 (fun _ => O) [("q", 90); ("r", 80); ("s", 30); ("t", 31)]
                 [["q"; "r"]; ["s"; "t"]] [["t"]] [["s"]; ["t"; "s"]]
                 [["q"; "r"]] [["s"]])
              (fun _ => true))
    as (popdict & E & _); [vm_compute; reflexivity|].
  exists popdict. split; [exact E|].
  rewrite (last_group_gives_the_contacts _ _ _ _ _ _ _ _ layer_W
             [["s"]] ["t"; "s"] [] "s" E); by_computation || reflexivity.
Defined.

(** X11. A uid that the assembler is given in no group of a layer has no
    contacts in that layer: nobody outside the facilities has 'LTCF'
    contacts, nobody outside the staff lists and the workplaces has 'W'
    contacts, and the community layer 'C' stays empty for everybody. *)
Theorem unlisted_have_no_contacts (sex_tape : nat -> nat)
    (age_by_uid_dic : list (uid * Z))
    (homes_by_uids schools_by_uids workplaces_by_uids : list (list uid))
    (facilities_by_uids facilities_staff_uids : list (list uid))
    (popdict : gmap uid person) (k : layer) (u : uid) :
  make_contacts_with_facilities_from_microstructure_objects sex_tape
    age_by_uid_dic homes_by_uids schools_by_uids workplaces_by_uids
    facilities_by_uids facilities_staff_uids = Ok popdict ->
  u ∉ layer_members k homes_by_uids schools_by_uids workplaces_by_uids
        facilities_by_uids facilities_staff_uids ->
  contacts_of popdict u k = ∅.
Proof.
  intros Hrun Hout.
  destruct (make_contacts_stages _ _ _ _ _ _ _ _ Hrun)
    as (pop0 & pop1 & pop2 & pop3 & H0 & H1 & H2 & H3 & H4).
  rewrite slice_from_nat in H2.
  assert (HW : k = layer_W ->
               (u ∉ concat workplaces_by_uids)
               /\ (u ∉ concat (take (length facilities_by_uids)
                                 (drop 0 facilities_staff_uids)))).
  { intros ->. simpl in Hout. rewrite drop_0. split; intros Hin; apply Hout;
      apply elem_of_app; auto. }
  rewrite (link_groups_frame _ _ _ _ u k H4).
  2:{ destruct (decide (k = layer_W)) as [Hk|Hk]; [right|now left].
      now apply HW. }
  rewrite (link_groups_frame _ _ _ _ u k H3).
  2:{ destruct (decide (k = layer_S)) as [->|Hk]; [now right|now left]. }
  rewrite (link_groups_frame _ _ _ _ u k H2).
  2:{ destruct (decide (k = layer_H)) as [->|Hk]; [now right|now left]. }
  rewrite (link_facilities_untouched _ u k _ _ _ _ H1).
  - apply H0.
  - now intros ->.
  - intros Hk. now apply HW.
Qed.

Lemma unlisted_have_no_contacts_witness :
  exists popdict,
    make_contacts_with_facilities_from_microstructure_objects (fun _ => O)
      [("q", 90); ("r", 80); ("s", 30); ("t", 31)]
      [["q"; "r"]; ["s"; "t"]] [["t"]] [["t"]] [["q"; "r"]] [["s"]]
    = Ok popdict
    /\ contacts_of popdict "q" layer_H = ∅.
Proof.
  destruct (ok_run
              (make_contacts_with_facilities_from_microstructure_objects
                 (fun _ => O) [("q", 90); ("r", 80); ("s", 30); ("t", 31)]
                 [["q"; "r"]; ["s"; "t"]] [["t"]] [["t"]]
                 [["q"; "r"]] [["s"]])
              (fun _ => true))
    as (popdict & E & _); [vm_compute; reflexivity|].
  exists popdict. split; [exact E|].
  apply (unlisted_have_no_contacts _ _ _ _ _ _ _ _ layer_H "q" E).
  by_computation.
Defined.

(** ** The role flags *)

(** What an inner loop does to a field that the contact sets do not
    touch and that [flag] changes by [fr]. *)
Lemma for_each_link_field {B : Type} (proj : person -> B) (fr : B -> B)
    (k : layer) (G : gset uid) (flag : person -> person) :
  (forall s p, proj (flag (set_contacts k s p)) = fr (proj p)) ->
  (forall b, fr (fr b) = fr b) ->
  forall (members : list uid) (pop pop' : gmap uid person),
    for_each (link k G flag) members pop = Ok pop' ->
    forall v p', pop' !! v = Some p' ->
      exists p, pop !! v = Some p
        /\ proj p' = if decide (v ∈ members) then fr (proj p) else proj p.
Proof.
  intros Hflag Hfr.
  induction members as [|u members IH]; intros pop pop' Hrun v p' Hp'.
  - simpl in Hrun. injection Hrun as <-. exists p'. split; [assumption|].
    rewrite decide_False; [reflexivity|]. apply not_elem_of_nil.
  - simpl in Hrun. bind_inv Hrun pop1 H1.
    destruct (IH pop1 pop' Hrun v p' Hp') as (p1 & Hp1 & Hproj).
    unfold link in H1. bind_inv H1 p0 Hp0. bind_inv H1 s Hs.
    injection H1 as <-. apply getitem_ok in Hp0.
    destruct (decide (v = u)) as [->|Hne].
    + rewrite lookup_insert_eq in Hp1. injection Hp1 as <-.
      exists p0. split; [assumption|]. rewrite Hflag in Hproj.
      rewrite decide_True by now left.
      rewrite Hproj. destruct (decide _); auto.
    + rewrite lookup_insert_ne in Hp1 by congruence.
      exists p1. split; [assumption|]. rewrite Hproj.
      destruct (decide (v ∈ members)) as [Hin|Hout].
      * rewrite decide_True; [reflexivity|]. now right.
      * rewrite decide_False; [reflexivity|].
        intros Hin. apply elem_of_cons in Hin as [?|?]; tauto.
Qed.

(** The plain passes leave both role flags as they are. *)
Lemma link_groups_flags (k : layer) :
  forall (groups : list (list uid)) (pop pop' : gmap uid person),
    for_each (link_group k) groups pop = Ok pop' ->
    forall v p', pop' !! v = Some p' ->
      exists p, pop !! v = Some p
        /\ snf_res p' = snf_res p /\ snf_staff p' = snf_staff p.
Proof.
  induction groups as [|g groups IH]; intros pop pop' Hrun v p' Hp'.
  - simpl in Hrun. injection Hrun as <-. eauto.
  - simpl in Hrun. bind_inv Hrun pop1 H1.
    destruct (IH pop1 pop' Hrun v p' Hp') as (p1 & Hp1 & Hr & Hs).
    destruct (for_each_link_field (fun p => (snf_res p, snf_staff p)) id
                k (set_of g) id (fun _ _ => eq_refl) (fun _ => eq_refl)
                g pop pop1 H1 v p1 Hp1) as (p & Hp & Hproj).
    exists p. split; [assumption|].
    assert (Hpair : (snf_res p1, snf_staff p1) = (snf_res p, snf_staff p))
      by (revert Hproj; destruct (decide (v ∈ g)); intros Hproj; exact Hproj).
    injection Hpair as Hr1 Hs1. split; congruence.
Qed.

(** The facility pass sets [snf_res] for the residents and [snf_staff]
    for the staff, and changes no other flag. *)
Lemma link_facilities_flags (staff : list (list uid)) :
  forall (facilities : list (list uid)) (n : nat)
         (pop pop' : gmap uid person),
    for_each_enumerate (link_facility staff) n facilities pop = Ok pop' ->
    forall v p', pop' !! v = Some p' ->
      exists p, pop !! v = Some p
        /\ snf_res p'
           = (if decide (v ∈ concat facilities) then Some 1 else snf_res p)
        /\ snf_staff p'
           = (if decide (v ∈ concat (take (length facilities)
                                       (drop n staff)))
              then Some 1 else snf_staff p).
Proof.
  induction facilities as [|fc facilities IH]; intros n pop pop' Hrun v p' Hp'.
  - simpl in Hrun. injection Hrun as <-. exists p'.
    split; [assumption|].
    split.
    + destruct (decide _) as [Hin|]; [|reflexivity].
      simpl in Hin. now apply elem_of_nil in Hin.
    + destruct (decide _) as [Hin|]; [|reflexivity].
      simpl in Hin. now apply elem_of_nil in Hin.
  - simpl in Hrun. bind_inv Hrun pop1 H1.
    destruct (IH (S n) pop1 pop' Hrun v p' Hp') as (p1 & Hp1 & Hr & Hs).
    unfold link_facility in H1. bind_inv H1 st Hst. bind_inv H1 pop0 H0.
    apply index_lookup in Hst.
    pose proof (drop_S staff st n Hst) as Hdrop.
    destruct (for_each_link_field snf_staff (fun _ => Some 1) layer_W _
                set_snf_staff (fun _ _ => eq_refl) (fun _ => eq_refl)
                st pop0 pop1 H1 v p1 Hp1) as (p0 & Hp0 & Hs1).
    destruct (for_each_link_field snf_res id layer_W _
                set_snf_staff (fun _ _ => eq_refl) (fun _ => eq_refl)
                st pop0 pop1 H1 v p1 Hp1) as (p0' & Hp0' & Hr1).
    rewrite Hp0 in Hp0'. injection Hp0' as <-.
    destruct (for_each_link_field snf_res (fun _ => Some 1) layer_LTCF _
                set_snf_res (fun _ _ => eq_refl) (fun _ => eq_refl)
                fc pop pop0 H0 v p0 Hp0) as (p & Hp & Hr0).
    destruct (for_each_link_field snf_staff id layer_LTCF _
                set_snf_res (fun _ _ => eq_refl) (fun _ => eq_refl)
                fc pop pop0 H0 v p0 Hp0) as (p_ & Hp_ & Hs0).
    rewrite Hp in Hp_. injection Hp_ as <-.
    exists p. split; [assumption|]. rewrite Hdrop. simpl.
    assert (Hr1' : snf_res p1 = snf_res p0)
      by (revert Hr1; destruct (decide (v ∈ st)); intros Hr1; exact Hr1).
    assert (Hs0' : snf_staff p0 = snf_staff p)
      by (revert Hs0; destruct (decide (v ∈ fc)); intros Hs0; exact Hs0).
    rewrite Hr, Hs, Hr1', Hr0, Hs1, Hs0'. split.
    + repeat destruct (decide _); try reflexivity; set_solver.
    + repeat destruct (decide _); try reflexivity; set_solver.
Qed.

Lemma init_popdict_flags (sex_tape : nat -> nat) :
  forall (items : list (uid * Z)) (i : nat) (pop : gmap uid person),
    (forall v p, pop !! v = Some p -> snf_res p = None /\ snf_staff p = None)
    -> forall v p, init_popdict sex_tape i items pop !! v = Some p ->
                   snf_res p = None /\ snf_staff p = None.
Proof.
  induction items as [|[u0 a] items IH]; intros i pop Hpop v p Hp; [eauto|].
  simpl in Hp. apply (IH _ _ ) in Hp; [assumption|]. intros w q Hq.
  destruct (decide (w = u0)) as [->|Hne].
  - rewrite lookup_insert_eq in Hq. now injection Hq as <-.
  - rewrite lookup_insert_ne in Hq by congruence. eauto.
Qed.

(** X12. In the returned popdict the flag [snf_res] is 1 exactly for the
    uids of the facilities and [snf_staff] is 1 exactly for the uids of
    the staff lists in use; for everybody else the flags are still None. *)
Theorem role_flags_mark_residents_and_staff (sex_tape : nat -> nat)
    (age_by_uid_dic : list (uid * Z))
    (homes_by_uids schools_by_uids workplaces_by_uids : list (list uid))
    (facilities_by_uids facilities_staff_uids : list (list uid))
    (popdict : gmap uid person) (u : uid) (p : person) :
  make_contacts_with_facilities_from_microstructure_objects sex_tape
    age_by_uid_dic homes_by_uids schools_by_uids workplaces_by_uids
    facilities_by_uids facilities_staff_uids = Ok popdict ->
  popdict !! u = Some p ->
  snf_res p
  = (if decide (u ∈ concat facilities_by_uids) then Some 1 else None)
  /\ snf_staff p
     = (if decide (u ∈ concat (take (length facilities_by_uids)
                                 facilities_staff_uids))
        then Some 1 else None).
Proof.
  intros Hrun Hp.
  destruct (make_contacts_passes _ _ _ _ _ _ _ _ Hrun)
    as (pop1 & pop2 & pop3 & H1 & H2 & H3 & H4).
  destruct (link_groups_flags _ _ _ _ H4 u p Hp) as (p3 & Hp3 & Hr3 & Hs3).
  destruct (link_groups_flags _ _ _ _ H3 u p3 Hp3) as (p2 & Hp2 & Hr2 & Hs2).
  destruct (link_groups_flags _ _ _ _ H2 u p2 Hp2) as (p1 & Hp1 & Hr1 & Hs1).
  destruct (link_facilities_flags _ _ _ _ _ H1 u p1 Hp1)
    as (p0 & Hp0 & Hr0 & Hs0).
  rewrite drop_0 in Hs0.
  destruct (init_popdict_flags sex_tape age_by_uid_dic 0 ∅) with (v := u)
    (p := p0) as [Hr Hs]; [|assumption|].
  { intros v q Hq. now rewrite lookup_empty in Hq. }
  rewrite Hr in Hr0. rewrite Hs in Hs0. split; congruence.
Qed.

Lemma role_flags_mark_residents_and_staff_witness :
  exists popdict p,
    make_contacts_with_facilities_from_microstructure_objects (fun _ => O)
      [("q", 90); ("r", 80); ("s", 30); ("t", 31)]
      [["q"; "r"]; ["s"; "t"]] [["t"]] [["t"]] [["q"; "r"]] [["s"]; ["t"]]
    = Ok popdict
    /\ popdict !! "t" = Some p
    /\ snf_res p = None /\ snf_staff p = None.
Proof.
  destruct (ok_run
              (make_contacts_with_facilities_from_microstructure_objects
                 (fun _ => O) [("q", 90); ("r", 80); ("s", 30); ("t", 31)]
                 [["q"; "r"]; ["s"; "t"]] [["t"]] [["t"]]
                 [["q"; "r"]] [["s"]; ["t"]])
              (fun popdict => bool_decide (is_Some (popdict !! "t"))))
    as (popdict & E & Hb); [vm_compute; reflexivity|].
  apply bool_decide_eq_true in Hb. destruct Hb as [p Hp].
  exists popdict, p. split; [exact E|]. split; [exact Hp|].
  destruct (role_flags_mark_residents_and_staff _ _ _ _ _ _ _ _ "t" p E Hp)
    as [Hr Hs].
  split; [rewrite Hr|rewrite Hs]; by_computation.
Defined.

(** ** Staff assignment: who is taken, and how many *)

Lemma staff_of_age_app (a : Z) (ages1 ages2 : list Z) :
  forall (us1 us2 : list uid),
    length ages1 = length us1 ->
    staff_of_age a (ages1 ++ ages2) (us1 ++ us2)
    = staff_of_age a ages1 us1 ++ staff_of_age a ages2 us2.
Proof.
  induction ages1 as [|a1 ages1 IH]; intros [|u1 us1] us2 Hlen;
    try discriminate; [reflexivity|].
  simpl in *. rewrite IH by lia. now destruct (decide (a1 = a)).
Qed.

Lemma assign_one_staff_taken (w : workers) (r : nat) (a0 : Z) (u : uid)
    (w' : workers) :
  assign_one_staff w r = Ok (a0, u, w') ->
  forall a, uids_at w a = staff_of_age a [a0] [u] ++ uids_at w' a.
Proof.
  intros Hrun a.
  destruct (assign_one_staff_ok w r a0 u w' Hrun)
    as (_ & l' & c & Hl & _ & ->).
  unfold uids_at. simpl. destruct (decide (a0 = a)) as [->|Hne].
  - now rewrite Hl, lookup_insert_eq.
  - now rewrite lookup_insert_ne by assumption.
Qed.

Lemma assign_staff_taken (tape : nat -> nat) :
  forall (n i : nat) (w : workers) (acc_a : list Z) (acc_u : list uid)
         (res_a : list Z) (res_u : list uid) (w' : workers),
    assign_staff n tape i w acc_a acc_u = Ok (res_a, res_u, w') ->
    exists (new_a : list Z) (new_u : list uid),
      res_a = acc_a ++ new_a /\ res_u = acc_u ++ new_u
      /\ length new_a = n /\ length new_u = n
      /\ forall a, uids_at w a = staff_of_age a new_a new_u ++ uids_at w' a.
Proof.
  induction n as [|n IH]; intros i w acc_a acc_u res_a res_u w' Hrun.
  - simpl in Hrun. injection Hrun as <- <- <-. exists [], [].
    now rewrite !app_nil_r.
  - simpl in Hrun. bind_inv Hrun x H1. destruct x as [[a0 u] w1].
    destruct (IH _ _ _ _ _ _ _ Hrun)
      as (new_a & new_u & -> & -> & Hla & Hlu & Htaken).
    exists (a0 :: new_a), (u :: new_u).
    rewrite <- !app_assoc. simpl. repeat split; try lia. intros a.
    rewrite (assign_one_staff_taken w _ a0 u w1 H1 a), Htaken. simpl.
    now destruct (decide (a0 = a)).
Qed.

Lemma assign_facilities_staff_taken (ratios : list Q)
    (ratio_tape : nat -> nat) (age_tape : nat -> nat -> nat) :
  forall (facilities : list (list Z)) (nf : nat) (w : workers)
         (acc_s : list (list Z)) (acc_u : list (list uid))
         (staff : list (list Z)) (staff_uids : list (list uid))
         (w' : workers),
    assign_facilities_staff ratios ratio_tape age_tape nf facilities w
      acc_s acc_u = Ok (staff, staff_uids, w') ->
    exists (new_s : list (list Z)) (new_u : list (list uid)),
      staff = acc_s ++ new_s /\ staff_uids = acc_u ++ new_u
      /\ (forall (j : nat) (fc : list Z), facilities !! j = Some fc ->
            exists ratio us,
              choice ratios (ratio_tape (nf + j)%nat) = Ok ratio
              /\ new_u !! j = Some us
              /\ length us
                 = Z.to_nat (ceil (inject_Z (Z.of_nat (length fc)) / ratio)%Q))
      /\ length (concat new_s) = length (concat new_u)
      /\ forall a,
           uids_at w a
           = staff_of_age a (concat new_s) (concat new_u) ++ uids_at w' a.
Proof.
  induction facilities as [|fc facilities IH];
    intros nf w acc_s acc_u staff staff_uids w' Hrun.
  - simpl in Hrun. injection Hrun as <- <- <-. exists [], [].
    rewrite !app_nil_r. repeat split; try reflexivity.
    intros j fc Hj. now rewrite lookup_nil in Hj.
  - simpl in Hrun. bind_inv Hrun n Hn. bind_inv Hrun x H1.
    destruct x as [[ages us] w1].
    destruct (n_staff_of_ok _ _ _ _ _ Hn) as (ratio & Hratio & ->).
    destruct (assign_staff_taken _ _ _ _ _ _ _ _ _ H1)
      as (new_a & new_u & Ha & Hu & Hla & Hlu & Htaken1).
    simpl in Ha, Hu. subst ages us.
    destruct (IH _ _ _ _ _ _ _ Hrun)
      as (new_s & new_us & -> & -> & Hper & Hlen & Htaken).
    exists (new_a :: new_s), (new_u :: new_us).
    rewrite <- !app_assoc. simpl. repeat split.
    + intros [|j] fc' Hj; simpl in Hj.
      * injection Hj as <-. exists ratio, new_u. rewrite Nat.add_0_r.
        repeat split; [assumption|exact Hlu].
      * destruct (Hper j fc' Hj) as (ratio' & us' & Hr' & Hus' & Hl').
        exists ratio', us'.
        replace (nf + S j)%nat with (S nf + j)%nat by lia. auto.
    + rewrite !List.length_app. lia.
    + intros a. rewrite (Htaken1 a), (Htaken a).
      rewrite staff_of_age_app by lia. now rewrite app_assoc.
Qed.

(** X13. Staff are taken first listed, first taken: when staff assignment
    completes, the uids that were listed under an age [a] before the run
    are the staff recorded with age [a], in the order they were assigned,
    followed by the uids still listed under [a] after the run.  So the age
    recorded for a staff member is the age its uid was listed under. *)
Theorem staff_taken_in_listed_order (KC_resident_staff_ratios : list Q)
    (ratio_tape : nat -> nat) (age_tape : nat -> nat -> nat)
    (facilities : list (list Z)) (w : workers)
    (facilities_staff : list (list Z))
    (facilities_staff_uids : list (list uid)) (w' : workers) :
  assign_facilities_staff KC_resident_staff_ratios ratio_tape age_tape 0
    facilities w [] [] = Ok (facilities_staff, facilities_staff_uids, w') ->
  length (concat facilities_staff) = length (concat facilities_staff_uids)
  /\ forall a,
       uids_at w a
       = staff_of_age a (concat facilities_staff)
           (concat facilities_staff_uids)
         ++ uids_at w' a.
Proof.
  intros Hrun.
  destruct (assign_facilities_staff_taken _ _ _ _ _ _ _ _ _ _ _ Hrun)
    as (new_s & new_u & -> & -> & _ & Hlen & Htaken).
  simpl. auto.
Qed.

Lemma staff_taken_in_listed_order_witness :
  exists staff staff_uids w',
    assign_facilities_staff [2 # 1; 1 # 1]%Q (fun n => n) (fun _ _ => O) 0
      [[80; 81]; [90]] small_workers [] [] = Ok (staff, staff_uids, w')
    /\ uids_at small_workers 30 = ["w1"; "w2"]
    /\ staff_of_age 30 (concat staff) (concat staff_uids) = ["w1"; "w2"]
    /\ uids_at w' 30 = [].
Proof.
  destruct (ok_run
              (assign_facilities_staff [2 # 1; 1 # 1]%Q (fun n => n)
                 (fun _ _ => O) 0 [[80; 81]; [90]] small_workers [] [])
              (fun x => bool_decide (uids_at (snd x) 30 = [])))
    as ([[staff staff_uids] w'] & E & Hb); [vm_compute; reflexivity|].
  apply bool_decide_eq_true in Hb. simpl in Hb.
  exists staff, staff_uids, w'. split; [exact E|].
  destruct (staff_taken_in_listed_order _ _ _ _ _ _ _ _ E) as [_ Htaken].
  specialize (Htaken 30). rewrite Hb, app_nil_r in Htaken.
  split; [by_computation|]. split; [|exact Hb].
  rewrite <- Htaken. by_computation.
Defined.

Lemma choice_In {A : Type} (l : list A) (r : nat) (a : A) :
  choice l r = Ok a -> In a l.
Proof.
  destruct l as [|x l']; [discriminate|]. unfold choice. intros H.
  apply index_ok in H. eapply nth_error_In; eauto.
Qed.

(** X14. With positive resident-to-staff ratios every facility that has a
    resident gets at least one staff member, and with ratios of at least
    one no facility gets more staff than it has residents. *)
Theorem every_facility_is_staffed (KC_resident_staff_ratios : list Q)
    (ratio_tape : nat -> nat) (age_tape : nat -> nat -> nat)
    (facilities : list (list Z)) (w : workers)
    (facilities_staff : list (list Z))
    (facilities_staff_uids : list (list uid)) (w' : workers)
    (nf : nat) (fc : list Z) :
  assign_facilities_staff KC_resident_staff_ratios ratio_tape age_tape 0
    facilities w [] [] = Ok (facilities_staff, facilities_staff_uids, w') ->
  List.Forall (fun q => (0 < q)%Q) KC_resident_staff_ratios ->
  facilities !! nf = Some fc ->
  exists new_staff_uids,
    facilities_staff_uids !! nf = Some new_staff_uids
    /\ (fc <> [] -> new_staff_uids <> [])
    /\ (List.Forall (fun q => (1 <= q)%Q) KC_resident_staff_ratios ->
        (length new_staff_uids <= length fc)%nat).
Proof.
  intros Hrun Hpos Hnf.
  destruct (assign_facilities_staff_taken _ _ _ _ _ _ _ _ _ _ _ Hrun)
    as (new_s & new_u & _ & -> & Hper & _).
  destruct (Hper nf fc Hnf) as (ratio & us & Hratio & Hus & Hlen).
  simpl in Hratio. apply choice_In in Hratio.
  exists us. split; [exact Hus|].
  pose proof (proj1 (List.Forall_forall _ _) Hpos ratio Hratio) as Hq.
  set (n := Z.of_nat (length fc)) in *. split.
  - intros Hne Hnil. subst us. simpl in Hlen.
    assert (Hn : 0 < n) by (destruct fc; [congruence|simpl in n; lia]).
    assert (Hx : (0 < inject_Z n / ratio)%Q).
    { apply Qlt_shift_div_l; [assumption|]. rewrite Qmult_0_l.
      change (inject_Z 0 < inject_Z n)%Q. now rewrite <- Zlt_Qlt. }
    pose proof (Qle_ceiling (inject_Z n / ratio)) as Hc.
    assert (Hz : (0 < inject_Z (ceil (inject_Z n / ratio)))%Q)
      by (eapply Qlt_le_trans; eauto).
    change 0%Q with (inject_Z 0) in Hz. rewrite <- Zlt_Qlt in Hz. lia.
  - intros Hge.
    pose proof (proj1 (List.Forall_forall _ _) Hge ratio Hratio) as Hq1.
    assert (Hx : (inject_Z n / ratio <= inject_Z n)%Q).
    { apply Qle_shift_div_r; [assumption|].
      rewrite <- (Qmult_1_l (inject_Z n)) at 1.
      rewrite (Qmult_comm (inject_Z n) ratio).
      apply Qmult_le_compat_r; [assumption|].
      change (inject_Z 0 <= inject_Z n)%Q. rewrite <- Zle_Qle. subst n. lia. }
    apply Qceiling_resp_le in Hx. rewrite Qceiling_Z in Hx.
    unfold ceil in Hlen. subst n. lia.
Qed.

Lemma every_facility_is_staffed_witness :
  exists staff staff_uids w' new_staff_uids,
    assign_facilities_staff [2 # 1]%Q (fun _ => O) (fun _ _ => O) 0
      [[80; 81]] small_workers [] [] = Ok (staff, staff_uids, w')
    /\ staff_uids !! 0%nat = Some new_staff_uids
    /\ new_staff_uids <> []
    /\ (length new_staff_uids <= 2)%nat.
Proof.
  destruct (ok_run
              (assign_facilities_staff [2 # 1]%Q (fun _ => O) (fun _ _ => O)
                 0 [[80; 81]] small_workers [] [])
              (fun _ => true))
    as ([[staff staff_uids] w'] & E & _); [vm_compute; reflexivity|].
  destruct (every_facility_is_staffed _ _ _ _ _ _ _ _ 0%nat [80; 81] E)
    as (us & Hus & Hne & Hle).
  - apply List.Forall_cons; [reflexivity|apply List.Forall_nil].
  - reflexivity.
  - exists staff, staff_uids, w', us. split; [exact E|].
    split; [exact Hus|]. split.
    + apply Hne. discriminate.
    + apply Hle. apply List.Forall_cons; [|apply List.Forall_nil].
      unfold Qle. simpl. lia.
Defined.

(** ** The resampler and the households it feeds *)

Lemma resample_if_keeps {R : Type} (sp : samplers R) (d : gmap Z Q)
    (P : Z -> Prop) (at_age : Z) (p : Q) (ar : Z * R) :
  (forall a' r', P (resample_age sp d a' r').1) ->
  P ar.1 -> P (resample_if sp d at_age p ar).1.
Proof.
  intros Hbase Har. unfold resample_if. destruct ar as [a r].
  destruct (a =? at_age); [|exact Har].
  destruct (binomial sp p r) as [coin r1]. destruct coin; [|exact Har].
  apply Hbase.
Qed.

Lemma resample_age_uk_keeps {R : Type} (sp : samplers R) (d : gmap Z Q)
    (P : Z -> Prop) (a : Z) (r : R) :
  (forall a' r', P (resample_age sp d a' r').1) ->
  P (resample_age_uk sp d a r).1.
Proof.
  intros Hbase. unfold resample_age_uk.
  repeat (apply resample_if_keeps; [exact Hbase|]). apply Hbase.
Qed.

Lemma resample_if_other {R : Type} (sp : samplers R) (d : gmap Z Q)
    (at_age : Z) (p : Q) (a : Z) (r : R) :
  a <> at_age -> resample_if sp d at_age p (a, r) = (a, r).
Proof.
  intros Hne. unfold resample_if.
  now destruct (Z.eqb_spec a at_age) as [?|_].
Qed.

(** X15. Whatever the coins say, the age the resampler returns is an answer
    of the base procedure [sp.resample_age]; and when the first answer is
    none of 0, 1, 2, 4, 5, 6, 7 it is returned as it is, with no coin
    tossed: the random stream is where the base procedure left it. *)
Theorem resample_age_uk_answers_base {R : Type} (sp : samplers R)
    (exp_age_distr : gmap Z Q) (a : Z) (r : R) :
  (exists a' r',
     (resample_age_uk sp exp_age_distr a r).1
     = (resample_age sp exp_age_distr a' r').1)
  /\ ((resample_age sp exp_age_distr a r).1 ∉ [7; 6; 5; 0; 1; 2; 4] ->
      resample_age_uk sp exp_age_distr a r
      = resample_age sp exp_age_distr a r).
Proof.
  split.
  - apply (resample_age_uk_keeps sp exp_age_distr
             (fun x => exists a' r',
                         x = (resample_age sp exp_age_distr a' r').1)).
    intros a' r'. now exists a', r'.
  - unfold resample_age_uk.
    destruct (resample_age sp exp_age_distr a r) as [a1 r1].
    cbv zeta. cbn [fst]. intros Hout.
    rewrite !resample_if_other; [reflexivity|..];
      intros ->; apply Hout; set_solver.
Qed.

Lemma generate_member_keeps {R : Type} (sp : samplers R)
    (t : household_tables) (b_prob : list Q) (d : gmap Z Q) (P : Z -> Prop)
    (r : R) (ai : Z) (r' : R) :
  (forall a' r0, P (resample_age sp d a' r0).1) ->
  generate_member sp t b_prob d r = Ok (ai, r') -> P ai.
Proof.
  intros Hbase. unfold generate_member.
  destruct (sample_single sp b_prob r) as [bi r1]. intros Hrun.
  bind_inv Hrun bracket Hb. bind_inv Hrun lohi Hl. destruct lohi as [lo hi].
  destruct (sample_from_range sp d lo hi r1) as [ai0 r2].
  assert (Hend : forall x rx, Ok (resample_age_uk sp d x rx) = Ok (ai, r') ->
                              P ai).
  { intros x rx Heq. injection Heq as Heq.
    pose proof (resample_age_uk_keeps sp d P x rx Hbase) as HP.
    now rewrite Heq in HP. }
  destruct ((5 <? ai0) && (ai0 <=? 20)); [|now apply Hend in Hrun].
  destruct (binomial sp ya_coin r2) as [coin r3].
  destruct coin; [|now apply Hend in Hrun].
  destruct (sample_from_range sp d 25 32 r3) as [ai1 r4].
  now apply Hend in Hrun.
Qed.

Lemma generate_members_keep {R : Type} (sp : samplers R)
    (t : household_tables) (b_prob : list Q) (d : gmap Z Q) (P : Z -> Prop) :
  (forall a' r0, P (resample_age sp d a' r0).1) ->
  forall (todo : nat) (r : R) (members : list Z) (r' : R),
    generate_members sp t b_prob d todo r = Ok (members, r') ->
    List.Forall P members.
Proof.
  intros Hbase.
  induction todo as [|todo IH]; intros r members r' Hrun; simpl in Hrun.
  - injection Hrun as <- <-. constructor.
  - bind_inv Hrun ar Har. destruct ar as [ai r1].
    bind_inv Hrun mr Hmr. destruct mr as [rest r2].
    injection Hrun as <- <-. constructor; [|eauto].
    eapply generate_member_keeps; eauto.
Qed.

(** A row of [homes]: the head, whose age the bracket table knows, and
    members whose ages are answers of the base resampler. *)
Lemma generate_household_row {R : Type} (sp : samplers R)
    (t : household_tables) (size : nat) (d : gmap Z Q) (P : Z -> Prop)
    (r : R) (home : list Z) (r' : R) :
  (forall a' r0, P (resample_age sp d a' r0).1) ->
  generate_household sp t size d r = Ok (home, r') ->
  exists hha members,
    home = hha :: members
    /\ is_Some (age_by_brackets_dic t !! hha)
    /\ length members = (size - 1)%nat
    /\ List.Forall P members.
Proof.
  intros Hbase. unfold generate_household.
  destruct (generate_household_head_age_by_size sp size d r) as [hha r1].
  intros Hrun. bind_inv Hrun b Hb. bind_inv Hrun b_prob Hprob.
  bind_inv Hrun mr Hmr. destruct mr as [members r2].
  injection Hrun as <- <-. exists hha, members. apply getitem_ok in Hb.
  repeat split.
  - now exists b.
  - eapply generate_members_length; eauto.
  - eapply generate_members_keep; eauto.
Qed.

Lemma generate_households_rows {R : Type} (sp : samplers R)
    (t : household_tables) (size : nat) (d : gmap Z Q) (P : Z -> Prop) :
  (forall a' r0, P (resample_age sp d a' r0).1) ->
  forall (todo : nat) (r : R) (rows : list (list Z)) (r' : R),
    generate_households sp t size d todo r = Ok (rows, r') ->
    length rows = todo
    /\ List.Forall
         (fun home =>
            exists hha members,
              home = hha :: members
              /\ is_Some (age_by_brackets_dic t !! hha)
              /\ length members = (size - 1)%nat
              /\ List.Forall P members) rows.
Proof.
  intros Hbase.
  induction todo as [|todo IH]; intros r rows r' Hrun; simpl in Hrun.
  - injection Hrun as <- <-. split; [reflexivity|constructor].
  - bind_inv Hrun hr Hhome. destruct hr as [home r1].
    bind_inv Hrun rr Hrest. destruct rr as [rest r2].
    injection Hrun as <- <-. destruct (IH _ _ _ Hrest) as [Hlen Hall].
    split; [simpl; lia|]. constructor; [|assumption].
    eapply generate_household_row; eauto.
Qed.

(** X16. For a household size of at least one, a completed call of
    [generate_larger_households] returns [hh_sizes[size-1]] rows; every
    row holds [size] ages, the first of them the head's, which the bracket
    table knows, and every other one an answer of the base resampler. *)
Theorem larger_households_rows {R : Type} (sp : samplers R) (size : nat)
    (hh_sizes : list nat) (t : household_tables)
    (single_year_age_distr : gmap Z Q) (P : Z -> Prop) (r : R)
    (homes : list (list Z)) (r' : R) :
  (1 <= size)%nat ->
  (forall a' r0, P (resample_age sp single_year_age_distr a' r0).1) ->
  generate_larger_households sp size hh_sizes t single_year_age_distr r
  = Ok (homes, r') ->
  hh_sizes !! (size - 1)%nat = Some (length homes)
  /\ List.Forall
       (fun home =>
          length home = size
          /\ exists hha members,
               home = hha :: members
               /\ is_Some (age_by_brackets_dic t !! hha)
               /\ List.Forall P members) homes.
Proof.
  intros Hsize Hbase Hrun. unfold generate_larger_households in Hrun.
  bind_inv Hrun count Hcount. apply index_lookup in Hcount.
  destruct (generate_households_rows sp t size _ P Hbase _ _ _ _ Hrun)
    as [Hlen Hall].
  split; [now rewrite Hlen|].
  eapply List.Forall_impl; [|exact Hall].
  intros home (hha & members & -> & Hhha & Hl & HP). split.
  - simpl. lia.
  - now exists hha, members.
Qed.

Lemma larger_households_rows_witness :
  exists homes r',
    generate_larger_households fixed_samplers 2 [1; 1; 0; 0; 0; 0; 0]%nat
      small_tables {[ 30 := 1%Q ]} tt = Ok (homes, r')
    /\ length homes = 1%nat
    /\ List.Forall
         (fun home =>
            length home = 2%nat
            /\ exists hha members,
                 home = hha :: members
                 /\ is_Some (age_by_brackets_dic small_tables !! hha)
                 /\ List.Forall (fun a => a = 31) members) homes.
Proof.
  destruct (ok_run
              (generate_larger_households fixed_samplers 2
                 [1; 1; 0; 0; 0; 0; 0]%nat small_tables {[ 30 := 1%Q ]} tt)
              (fun _ => true))
    as ([homes r'] & E & _); [vm_compute; reflexivity|].
  exists homes, r'. split; [exact E|].
  destruct (larger_households_rows fixed_samplers 2 _ _ _
              (fun a => a = 31) _ _ _ (le_S _ _ (le_n 1))
              (fun _ _ => eq_refl) E) as [Hcount Hall].
  split; [|exact Hall]. simpl in Hcount. now injection Hcount as <-.
Defined.

Lemma generate_sizes_rows {R : Type} (sp : samplers R)
    (hh_sizes : list nat) (t : household_tables) (d : gmap Z Q) :
  forall (sizes : list nat) (r : R) (larger : list (list (list Z))) (r' : R),
    List.Forall (fun s => (1 <= s)%nat) sizes ->
    generate_sizes sp sizes hh_sizes t d r = Ok (larger, r') ->
    List.Forall2
      (fun s rows =>
         hh_sizes !! (s - 1)%nat = Some (length rows)
         /\ List.Forall (fun home => length home = s) rows)
      sizes larger.
Proof.
  induction sizes as [|s sizes IH]; intros r larger r' Hpos Hrun;
    simpl in Hrun.
  - injection Hrun as <- <-. constructor.
  - inversion Hpos as [|? ? Hs Hpos']; subst.
    bind_inv Hrun hr Hs1. destruct hr as [rows r1].
    bind_inv Hrun rr Hrest. destruct rr as [rest r2].
    injection Hrun as <- <-. constructor; [|eauto].
    unfold generate_larger_households in Hs1. bind_inv Hs1 count Hcount.
    apply index_lookup in Hcount.
    destruct (generate_households_headcount sp t s d Hs _ _ _ _ Hs1)
      as (Hlen & Hall & _).
    split; [now rewrite Hlen|exact Hall].
Qed.

(** X17. A completed call of [generate_all_households] has read seven
    household counts: [homes_dic] has the seven sizes 1 to 7 as its keys,
    and for every size [s] from 2 to 7 it holds [hh_sizes[s-1]] rows of
    [s] ages each.  A shorter [hh_sizes] never gives a result. *)
Theorem all_households_by_size {R : Type} (sp : samplers R) (N : Z)
    (hh_sizes : list nat) (t : household_tables)
    (single_year_age_distr : gmap Z Q) (r : R) (hh : all_households R) :
  generate_all_households sp N hh_sizes t single_year_age_distr r = Ok hh ->
  (7 <= length hh_sizes)%nat
  /\ length (homes_dic hh) = 7%nat
  /\ forall s, (2 <= s <= 7)%nat ->
       exists rows,
         homes_dic hh !! (s - 1)%nat = Some rows
         /\ hh_sizes !! (s - 1)%nat = Some (length rows)
         /\ List.Forall (fun home => length home = s) rows.
Proof.
  intros Hrun.
  destruct (generate_all_households_ok _ _ _ _ _ _ _ Hrun)
    as (alone & r1 & d1 & larger & r2 & _ & _ & Hsizes & Hdic & _ & _).
  apply generate_sizes_rows in Hsizes.
  2:{ apply List.Forall_forall. intros s Hs. apply in_seq in Hs. lia. }
  rewrite Hdic.
  assert (Hrows : forall s, (2 <= s <= 7)%nat ->
            exists rows,
              larger !! (s - 2)%nat = Some rows
              /\ hh_sizes !! (s - 1)%nat = Some (length rows)
              /\ List.Forall (fun home => length home = s) rows).
  { intros s Hs.
    assert (Hseq : seq 2 6 !! (s - 2)%nat = Some s).
    { apply lookup_seq. lia. }
    destruct (Forall2_lookup_l _ _ _ _ _ Hsizes Hseq)
      as (rows & Hl & Hc & Hall).
    now exists rows. }
  pose proof (Forall2_length _ _ _ Hsizes) as Hlen. simpl in Hlen.
  split; [|split].
  - destruct (Hrows 7%nat) as (rows & _ & H7 & _); [lia|].
    apply lookup_lt_Some in H7. simpl in H7. lia.
  - simpl. lia.
  - intros s Hs. destruct (Hrows s Hs) as (rows & Hl & Hc & Hall).
    exists rows. split; [|auto].
    replace (s - 1)%nat with (S (s - 2)) by lia. exact Hl.
Qed.

Lemma all_households_by_size_witness :
  exists hh rows,
    generate_all_households fixed_samplers 3 [1; 1; 0; 0; 0; 0; 0]%nat
      small_tables {[ 30 := 1%Q ]} tt = Ok hh
    /\ length (homes_dic hh) = 7%nat
    /\ homes_dic hh !! 1%nat = Some rows
    /\ length rows = 1%nat
    /\ List.Forall (fun home => length home = 2%nat) rows.
Proof.
  destruct (ok_run
              (generate_all_households fixed_samplers 3
                 [1; 1; 0; 0; 0; 0; 0]%nat small_tables {[ 30 := 1%Q ]} tt)
              (fun _ => true))
    as (hh & E & _); [vm_compute; reflexivity|].
  destruct (all_households_by_size _ _ _ _ _ _ _ E) as (_ & Hlen & Hrows).
  destruct (Hrows 2%nat) as (rows & Hl & Hc & Hall); [lia|].
  exists hh, rows. repeat split; try assumption.
  simpl in Hc. now injection Hc as <-.
Defined.

(** ** The expected and the adjusted age counts *)





